(** * rag-document-qa: the chunker ([src/chunker.py])

    A shallow embedding of [chunk_text], the function that slides an
    overlapping window over every page of a document and snaps the window to
    a newline or a sentence end.

    - Python [int] is [Z]; a Python [str] is the list of its code points.
    - Slices [text[i:j]] follow Python: negative indices count from the end,
      out-of-range indices are clamped, an empty range gives the empty string.
    - The [while] loop runs on fuel; running out of fuel is the outcome
      [OutOfFuel], never a result.
    - [raise ValueError(...)] is the outcome [Raised].
    - The final [print] is a progress message and is left out. *)

From Stdlib Require Import ZArith List Lia Bool String Ascii QArith Sorted.
Import ListNotations.

#[local] Open Scope Z_scope.

(** ** Strings *)

(** A character is its code point; a string is the list of its characters. *)
Abbreviation char := N (only parsing).
Abbreviation str := (list N) (only parsing).

Definition of_string (s : string) : str :=
  map N_of_ascii (list_ascii_of_string s).

Definition len {A : Type} (s : list A) : Z := Z.of_nat (List.length s).

(** Index normalisation of a slice bound, as [PySlice_AdjustIndices] does it
    for step 1. *)
Definition clamp (n i : Z) : Z :=
  if i <? 0 then Z.max 0 (i + n) else Z.min i n.

(** [slice s i j] is [s[i:j]]. *)
Definition slice {A : Type} (s : list A) (i j : Z) : list A :=
  let lo := clamp (len s) i in
  let hi := clamp (len s) j in
  firstn (Z.to_nat (hi - lo)) (skipn (Z.to_nat lo) s).

Fixpoint starts_with (sub s : str) : bool :=
  match sub, s with
  | [], _ => true
  | _ :: _, [] => false
  | a :: sub', b :: s' => N.eqb a b && starts_with sub' s'
  end.

(** Left-to-right scan that remembers the last offset at which [sub] occurs;
    [i] is the offset of the head of [s], [last] the answer so far. *)
Fixpoint rfind_from (sub s : str) (i last : Z) : Z :=
  match s with
  | [] => if starts_with sub [] then i else last
  | _ :: s' => rfind_from sub s' (i + 1) (if starts_with sub s then i else last)
  end.

(** [rfind sub s] is [s.rfind(sub)]: the highest offset at which [sub] occurs
    in [s], or [-1]. *)
Definition rfind (sub s : str) : Z := rfind_from sub s 0 (-1).

(** [str.isspace] on one code point: the characters [str.strip()] removes. *)
Definition is_space (c : char) : bool :=
  let c := Z.of_N c in
  ((9 <=? c) && (c <=? 13)) || ((28 <=? c) && (c <=? 32))
  || (c =? 133) || (c =? 160) || (c =? 5760)
  || ((8192 <=? c) && (c <=? 8202))
  || (c =? 8232) || (c =? 8233) || (c =? 8239) || (c =? 8287) || (c =? 12288).

Fixpoint lstrip (s : str) : str :=
  match s with
  | [] => []
  | c :: s' => if is_space c then lstrip s' else s
  end.

Definition rstrip (s : str) : str := rev (lstrip (rev s)).

(** [strip s] is [s.strip()]. *)
Definition strip (s : str) : str := rstrip (lstrip s).

Definition newline : str := [10%N].
Definition period_space : str := [46%N; 32%N].

(** ** Records *)

Module Page.
Record t : Type := mk { text : str; source : str; page_number : Z }.
End Page.

Module Chunk.
Record t : Type :=
  mk { text : str; source : str; page_number : Z; chunk_index : Z }.
End Chunk.

Inductive exn : Type :=
| ValueError (msg : string).

Inductive outcome (A : Type) : Type :=
| Returned (a : A)
| Raised (e : exn)
| OutOfFuel.

Arguments Returned {A} a.
Arguments Raised {A} e.
Arguments OutOfFuel {A}.

(** ** The window of one iteration *)

(** [break_point > chunk_size * 0.5]. The product is taken over the
    rationals: Python compares an [int] with a [float] by value, and the
    float product is the exact half for every [chunk_size] whose absolute
    value is at most [2^53], which covers every window size a text in memory
    can reach. *)
Definition past_half (break_point chunk_size : Z) : bool :=
  negb (Qle_bool (inject_Z break_point) (inject_Z chunk_size * (1 # 2))).

(** [break_point = max(last_newline, last_period)] on a candidate. *)
Definition break_point_of (chunk_text_content : str) : Z :=
  let last_newline := rfind newline chunk_text_content in
  let last_period := rfind period_space chunk_text_content in
  Z.max last_newline last_period.

(** Whether the iteration at [start] re-slices its candidate. *)
Definition snaps (text : str) (chunk_size start : Z) : bool :=
  let end_ := start + chunk_size in
  (end_ <? len text) && past_half (break_point_of (slice text start end_)) chunk_size.

(** Lines 43-60: the candidate text and the final [end] of the iteration
    whose cursor is [start]. *)
Definition window (text : str) (chunk_size start : Z) : str * Z :=
  let end_ := start + chunk_size in
  let chunk_text_content := slice text start end_ in
  if end_ <? len text then
    let break_point := break_point_of chunk_text_content in
    if past_half break_point chunk_size then
      (slice text start (start + break_point + 1), start + break_point + 1)
    else (chunk_text_content, end_)
  else (chunk_text_content, end_).

(** ** The loops *)

(** Lines 42-72: the [while] loop of one page. The state is the cursor
    [start], the global counter [chunk_index] and the list [chunks]. *)
Fixpoint page_loop (fuel : nat) (page : Page.t) (chunk_size chunk_overlap : Z)
    (start chunk_index : Z) (chunks : list Chunk.t) : option (list Chunk.t * Z) :=
  match fuel with
  | O => None
  | S fuel' =>
      if start <? len (Page.text page) then
        let (chunk_text_content, end_) := window (Page.text page) chunk_size start in
        page_loop fuel' page chunk_size chunk_overlap
          (end_ - chunk_overlap) (chunk_index + 1)
          (chunks ++ [Chunk.mk (strip chunk_text_content) (Page.source page)
                        (Page.page_number page) chunk_index])
      else Some (chunks, chunk_index)
  end.

(** Lines 35-72: the [for] loop over the pages; every page starts at cursor 0
    and inherits the counter and the list. *)
Fixpoint pages_loop (fuel : nat) (pages : list Page.t) (chunk_size chunk_overlap : Z)
    (chunk_index : Z) (chunks : list Chunk.t) : option (list Chunk.t) :=
  match pages with
  | [] => Some chunks
  | page :: rest =>
      match page_loop fuel page chunk_size chunk_overlap 0 chunk_index chunks with
      | None => None
      | Some (chunks', chunk_index') =>
          pages_loop fuel rest chunk_size chunk_overlap chunk_index' chunks'
      end
  end.

Definition chunk_text (fuel : nat) (pages : list Page.t)
    (chunk_size chunk_overlap : Z) : outcome (list Chunk.t) :=
  if chunk_size <=? chunk_overlap then
    Raised (ValueError "chunk_overlap must be less than chunk_size")
  else
    match pages_loop fuel pages chunk_size chunk_overlap 0 [] with
    | Some chunks => Returned chunks
    | None => OutOfFuel
    end.

(** ** The cursor sequence of a page *)

(** The values [start] takes at the head of the iterations that emit a
    chunk, in order. The code does not store them; they are what the claims
    about windows speak of. *)
Fixpoint cursors (fuel : nat) (text : str) (chunk_size chunk_overlap start : Z)
    : option (list Z) :=
  match fuel with
  | O => None
  | S fuel' =>
      if start <? len text then
        option_map (cons start)
          (cursors fuel' text chunk_size chunk_overlap
             (snd (window text chunk_size start) - chunk_overlap))
      else Some []
  end.

(** The chunk emitted by the iteration at [start] when the counter is
    [chunk_index]. *)
Definition emit (page : Page.t) (chunk_size chunk_index start : Z) : Chunk.t :=
  Chunk.mk (strip (fst (window (Page.text page) chunk_size start)))
    (Page.source page) (Page.page_number page) chunk_index.

Fixpoint emit_all (page : Page.t) (chunk_size chunk_index : Z) (starts : list Z)
    : list Chunk.t :=
  match starts with
  | [] => []
  | start :: rest =>
      emit page chunk_size chunk_index start
        :: emit_all page chunk_size (chunk_index + 1) rest
  end.

(** The cursor sequences of all pages, page by page. *)
Fixpoint pages_cursors (fuel : nat) (pages : list Page.t)
    (chunk_size chunk_overlap : Z) : option (list (list Z)) :=
  match pages with
  | [] => Some []
  | page :: rest =>
      match cursors fuel (Page.text page) chunk_size chunk_overlap 0 with
      | None => None
      | Some starts =>
          option_map (cons starts) (pages_cursors fuel rest chunk_size chunk_overlap)
      end
  end.

(** The chunks of all pages, given their cursor sequences: pages in input
    order, the chunks of a page in the order of its cursors, the counter
    running on from page to page. *)
Fixpoint emit_pages (pages : list Page.t) (chunk_size chunk_index : Z)
    (starts : list (list Z)) : list Chunk.t :=
  match pages, starts with
  | page :: rest, ss :: starts' =>
      emit_all page chunk_size chunk_index ss
        ++ emit_pages rest chunk_size (chunk_index + len ss) starts'
  | _, _ => []
  end.

(** [zrange lo n] is [lo, lo + 1, ..., lo + n - 1]. *)
Fixpoint zrange (lo : Z) (n : nat) : list Z :=
  match n with
  | O => []
  | S n' => lo :: zrange (lo + 1) n'
  end.

(** ** Worked inputs *)

Definition page_of (s : string) : Page.t :=
  Page.mk (of_string s) (of_string "doc.pdf") 1.

Definition nl : string := String (ascii_of_nat 10) EmptyString.

(** ** Predicates of the claims and worked inputs *)

(** [s] holds a character that is not whitespace. *)
Definition has_text (s : str) : bool := existsb (fun c => negb (is_space c)) s.

(** [sub] occurs in [s] at offset [k]. *)
Definition occurs_at (sub s : str) (k : Z) : Prop :=
  0 <= k <= len s /\ starts_with sub (skipn (Z.to_nat k) s) = true.

(** [r] is what [s.rfind(sub)] must be: the greatest offset of an occurrence,
    or [-1] when there is none. *)
Definition last_offset (sub s : str) (r : Z) : Prop :=
  (r = -1 /\ forall k, ~ occurs_at sub s k) \/
  (occurs_at sub s r /\ forall k, occurs_at sub s k -> k <= r).

(** The fuel that suffices for every page of the input. *)
Definition enough_fuel (pages : list Page.t) : nat :=
  S (fold_right (fun page n => Nat.max (List.length (Page.text page)) n) O pages).

(** A page with a line break at offset 3, read with [chunk_size = 5] and
    [chunk_overlap = 4]. *)
Definition stuck_page : Page.t := page_of ("abc" ++ nl ++ "defgh").


(** The chunks a page contributes: one per cursor of the page, each built
    from the window at that cursor. *)
Definition block_of (fuel : nat) (chunk_size chunk_overlap : Z)
    (page : Page.t) (block : list Chunk.t) : Prop :=
  exists chunk_index starts,
    cursors fuel (Page.text page) chunk_size chunk_overlap 0 = Some starts /\
    block = emit_all page chunk_size chunk_index starts.

(** [chunk] was built from [page] alone: it carries the page's [source] and
    [page_number], and its text is the trimmed candidate of a window whose
    cursor lies before the end of the page's text, hence a contiguous piece
    of that text. *)
Definition drawn_from (chunk_size : Z) (page : Page.t) (chunk : Chunk.t) : Prop :=
  Chunk.source chunk = Page.source page /\
  Chunk.page_number chunk = Page.page_number page /\
  (exists start,
      start < len (Page.text page) /\
      Chunk.text chunk = strip (fst (window (Page.text page) chunk_size start))) /\
  exists pre post, Page.text page = pre ++ Chunk.text chunk ++ post.

(** Two pages of one document, read with [chunk_size = 6] and
    [chunk_overlap = 2]: two chunks each. *)
Definition two_pages : list Page.t :=
  [Page.mk (of_string "abcdefgh") (of_string "doc.pdf") 1;
   Page.mk (of_string "ijklmnop") (of_string "doc.pdf") 2].

(** A page whose text is non-empty and already trimmed, with a run of
    blanks in the middle. *)
Definition blank_run_page : Page.t := page_of "a   b".


(** A page with a line break at offset 6, read with [chunk_size = 10] and
    [chunk_overlap = 8]. *)
Definition backstep_page : Page.t := page_of ("abcdef" ++ nl ++ "ghijk").

(** A page of five characters, read with [chunk_size = 6] and
    [chunk_overlap = 4]. *)
Definition short_page : Page.t := page_of "abcde".

(** What C2 says of a page and a configuration. *)
Definition single_chunk (page : Page.t) (chunk_size chunk_overlap : Z) : Prop :=
  exists fuel,
    chunk_text fuel [page] chunk_size chunk_overlap
    = Returned [Chunk.mk (strip (Page.text page)) (Page.source page)
                  (Page.page_number page) 0].

(** The last [chunk_overlap] characters of [earlier] are the first
    [chunk_overlap] characters of [next]. *)
Definition shares_overlap (chunk_overlap : Z) (earlier next : str) : Prop :=
  exists shared pre post,
    len shared = chunk_overlap /\ earlier = pre ++ shared /\ next = shared ++ post.

(** ** Further notions used on [chunk_text] *)

(** Truth value of a string in a condition: non-empty. *)
Definition truthy (s : str) : bool :=
  match s with
  | [] => false
  | _ :: _ => true
  end.

(** The chunk with its index moved up by [k]. *)
Definition shift_index (k : Z) (chunk : Chunk.t) : Chunk.t :=
  Chunk.mk (Chunk.text chunk) (Chunk.source chunk) (Chunk.page_number chunk)
    (Chunk.chunk_index chunk + k).

(** A sentence end at offset 6 of a text of 12 characters. *)
Definition sentence_text : str := of_string "abcdef. ghij".

(** * The page extractor ([src/document_loader.py]) *)

Module Loader.

(** What the world outside the program answers to [load_pdf(file_path)]:
    whether the path exists, the [suffix] and the [name] that [pathlib] reads
    off the path, and the text [get_text()] gives for each page of the
    document that [fitz.open] opens, in page order. Failures of the document
    engine itself are outside the model. *)
Record file : Type := mk_file {
  exists_ : bool;
  suffix : str;
  name : str;
  page_texts : list str
}.

Inductive error : Type :=
| FileNotFoundError
| ValueError (suffix : str).

Definition dot_pdf : str := of_string ".pdf".

Definition str_eqb (a b : str) : bool :=
  if list_eq_dec N.eq_dec a b then true else false.

(** Lines 36-46: the loop over the pages of the document; [page_num] is the
    index of the head of [texts], [pages] the list built so far. *)
Fixpoint load_pages (name : str) (texts : list str) (page_num : Z)
    (pages : list Page.t) : list Page.t :=
  match texts with
  | [] => pages
  | text :: rest =>
      load_pages name rest (page_num + 1)
        (if truthy (strip text)
         then pages ++ [Page.mk (strip text) name (page_num + 1)]
         else pages)
  end.

Section LoadPdf.

(** [str.lower]. *)
Variable lower : str -> str.

Definition load_pdf (f : file) : error + list Page.t :=
  if negb (exists_ f) then inl FileNotFoundError
  else if negb (str_eqb (lower (suffix f)) dot_pdf) then inl (ValueError (suffix f))
  else inr (load_pages (name f) (page_texts f) 0 []).

End LoadPdf.

(** The page record that [load_pdf] builds from the text [raw] of the page
    at index [i]. *)
Definition page_at (name : str) (i : nat) (raw : str) : Page.t :=
  Page.mk (strip raw) name (Z.of_nat i + 1).

(** [str.lower] on unaccented Latin letters, for the worked inputs. *)
Definition ascii_lower (s : str) : str :=
  map (fun c => if (65 <=? c)%N && (c <=? 90)%N then (c + 32)%N else c) s.

(** A document of four pages; the second is blank and the third is
    padded. *)
Definition report : file :=
  mk_file true (of_string ".PDF") (of_string "report.PDF")
    [of_string "Title"; of_string "   "; of_string " body text "; of_string "end"].

End Loader.

(** * The command line of the chunker ([src/chunker.py], lines 78-94) *)

Module Main.

(** What a run comes to: the usage message and exit status 1, an error of
    the extractor, an error of the chunker, a loop that does not end, or the
    chunks together with the preview that is printed. *)
Inductive result : Type :=
| Usage
| LoadFailed (e : Loader.error)
| ChunkFailed (e : exn)
| Hung
| Shown (chunks : list Chunk.t) (preview : list (Z * Z * Z * str)).

(** Lines 91-93: what is printed of a chunk: its index, its page, the length
    of its text and the first 300 characters of the text. *)
Definition preview_of (chunk : Chunk.t) : Z * Z * Z * str :=
  (Chunk.chunk_index chunk, Chunk.page_number chunk,
   len (Chunk.text chunk), slice (Chunk.text chunk) 0 300).

Section Run.

Variable lower : str -> str.

(** The files behind the paths. *)
Variable fs : str -> Loader.file.

Definition main (fuel : nat) (argv : list str) : result :=
  if len argv <? 2 then Usage
  else
    match Loader.load_pdf lower (fs (nth 1 argv [])) with
    | inl e => LoadFailed e
    | inr pages =>
        match chunk_text fuel pages 1000 200 with
        | Returned chunks => Shown chunks (map preview_of (slice chunks 0 3))
        | Raised e => ChunkFailed e
        | OutOfFuel => Hung
        end
    end.

End Run.

End Main.

(** ** Evaluation on small inputs *)

Example slice_neg : slice (of_string "abcdef") (-2) 8 = of_string "ef".
Proof. reflexivity. Qed.

Example rfind_ex : rfind period_space (of_string "a. b. c") = 4.
Proof. reflexivity. Qed.

Example strip_ex : strip (of_string "  a b ") = of_string "a b".
Proof. reflexivity. Qed.

(** ** Arithmetic of the halfway test *)

Lemma past_half_spec (break_point chunk_size : Z) :
  past_half break_point chunk_size = true <-> chunk_size < 2 * break_point.
Proof.
  unfold past_half. rewrite negb_true_iff.
  destruct (Qle_bool (inject_Z break_point) (inject_Z chunk_size * (1 # 2))) eqn:E.
  - apply Qle_bool_iff in E. unfold Qle in E. cbn in E. split; [discriminate | lia].
  - split; [intros _ | reflexivity].
    destruct (Z_lt_le_dec chunk_size (2 * break_point)) as [H | H]; [exact H | exfalso].
    assert (Hle : (inject_Z break_point <= inject_Z chunk_size * (1 # 2))%Q)
      by (unfold Qle; cbn; lia).
    apply Qle_bool_iff in Hle. congruence.
Qed.

Lemma past_half_ltb (break_point chunk_size : Z) :
  past_half break_point chunk_size = (chunk_size <? 2 * break_point).
Proof.
  destruct (chunk_size <? 2 * break_point) eqn:E.
  - apply past_half_spec, Z.ltb_lt, E.
  - destruct (past_half break_point chunk_size) eqn:P; [| reflexivity].
    apply past_half_spec in P. apply Z.ltb_ge in E. lia.
Qed.

(** ** Slices *)

Lemma len_nonneg {A : Type} (s : list A) : 0 <= len s.
Proof. unfold len. lia. Qed.

Lemma len_app {A : Type} (s t : list A) : len (s ++ t) = len s + len t.
Proof. unfold len. rewrite length_app. lia. Qed.

Lemma len_nil_iff {A : Type} (s : list A) : len s = 0 <-> s = [].
Proof.
  unfold len. destruct s; cbn; split; intro H; try reflexivity; try discriminate; lia.
Qed.

Lemma clamp_range (n i : Z) : 0 <= n -> 0 <= clamp n i <= n.
Proof. unfold clamp. destruct (i <? 0) eqn:E; [apply Z.ltb_lt in E | apply Z.ltb_ge in E]; lia. Qed.

Lemma clamp_inside (n i : Z) : 0 <= i <= n -> clamp n i = i.
Proof. unfold clamp. intros H. destruct (i <? 0) eqn:E; [apply Z.ltb_lt in E |]; lia. Qed.

Lemma clamp_beyond (n i : Z) : 0 <= n <= i -> clamp n i = n.
Proof. unfold clamp. intros H. destruct (i <? 0) eqn:E; [apply Z.ltb_lt in E |]; lia. Qed.

(** A slice is a contiguous piece of the string it is taken from. *)
Lemma slice_infix {A : Type} (s : list A) (i j : Z) :
  exists pre post, s = pre ++ slice s i j ++ post.
Proof.
  unfold slice.
  exists (firstn (Z.to_nat (clamp (len s) i)) s).
  exists (skipn (Z.to_nat (clamp (len s) j - clamp (len s) i))
            (skipn (Z.to_nat (clamp (len s) i)) s)).
  now rewrite !firstn_skipn.
Qed.

Lemma len_slice {A : Type} (s : list A) (i j : Z) :
  len (slice s i j) = Z.max 0 (clamp (len s) j - clamp (len s) i).
Proof.
  pose proof (clamp_range (len s) i (len_nonneg s)) as Hi.
  pose proof (clamp_range (len s) j (len_nonneg s)) as Hj.
  unfold slice, len in *. rewrite length_firstn, length_skipn. lia.
Qed.

Lemma len_slice_inside {A : Type} (s : list A) (i j : Z) :
  0 <= i <= j -> j <= len s -> len (slice s i j) = j - i.
Proof.
  intros Hi Hj. rewrite len_slice, !clamp_inside; lia.
Qed.

Lemma slice_whole {A : Type} (s : list A) (j : Z) : len s <= j -> slice s 0 j = s.
Proof.
  intros H. pose proof (len_nonneg s) as Hn. unfold slice.
  rewrite (clamp_inside (len s) 0), (clamp_beyond (len s) j) by lia.
  cbn [Z.to_nat skipn].
  rewrite Z.sub_0_r. unfold len. rewrite Nat2Z.id. apply firstn_all.
Qed.

Lemma firstn_plus {A : Type} (a b : nat) (s : list A) :
  firstn (a + b) s = firstn a s ++ firstn b (skipn a s).
Proof.
  revert s. induction a as [| a IH]; intros s; [reflexivity |].
  destruct s as [| x s]; cbn.
  - now rewrite firstn_nil.
  - now rewrite IH.
Qed.

Lemma skipn_plus {A : Type} (a b : nat) (s : list A) :
  skipn a (skipn b s) = skipn (b + a) s.
Proof.
  revert s. induction b as [| b IH]; intros s; [reflexivity |].
  destruct s as [| x s]; cbn.
  - now rewrite skipn_nil.
  - apply IH.
Qed.

(** Cutting a slice in two at an offset inside the string. *)
Lemma slice_split {A : Type} (s : list A) (i m j : Z) :
  0 <= i <= m -> m <= len s -> m <= j ->
  slice s i j = slice s i m ++ slice s m j.
Proof.
  intros Hi Hm Hj. unfold slice.
  pose proof (clamp_range (len s) j (len_nonneg s)) as Hcj.
  assert (Hge : m <= clamp (len s) j).
  { unfold clamp. destruct (j <? 0) eqn:E; [apply Z.ltb_lt in E |]; lia. }
  rewrite (clamp_inside (len s) i), (clamp_inside (len s) m) by lia.
  set (h := clamp (len s) j) in *.
  replace (Z.to_nat (h - i)) with (Z.to_nat (m - i) + Z.to_nat (h - m))%nat by lia.
  rewrite firstn_plus, skipn_plus.
  replace (Z.to_nat i + Z.to_nat (m - i))%nat with (Z.to_nat m) by lia.
  reflexivity.
Qed.

(** ** Trimming *)

Lemma lstrip_suffix (s : str) : exists pre, s = pre ++ lstrip s.
Proof.
  induction s as [| c s [pre IH]]; cbn.
  - now exists [].
  - destruct (is_space c).
    + exists (c :: pre). cbn. now f_equal.
    + now exists [].
Qed.

Lemma rstrip_prefix (s : str) : exists post, s = rstrip s ++ post.
Proof.
  unfold rstrip. destruct (lstrip_suffix (rev s)) as [pre H].
  exists (rev pre). rewrite <- rev_app_distr, <- H. symmetry. apply rev_involutive.
Qed.

(** The trimmed text is a contiguous piece of the text. *)
Lemma strip_infix (s : str) : exists pre post, s = pre ++ strip s ++ post.
Proof.
  unfold strip. destruct (lstrip_suffix s) as [pre H].
  destruct (rstrip_prefix (lstrip s)) as [post H'].
  exists pre, post. now rewrite <- H', <- H.
Qed.

Lemma lstrip_nil_iff (s : str) : lstrip s = [] <-> has_text s = false.
Proof.
  induction s as [| c s IH]; cbn; [tauto |].
  destruct (is_space c); cbn; [exact IH |]. split; discriminate.
Qed.

Lemma has_text_app (s t : str) : has_text (s ++ t) = has_text s || has_text t.
Proof. apply existsb_app. Qed.

Lemma has_text_rev (s : str) : has_text (rev s) = has_text s.
Proof.
  induction s as [| c s IH]; cbn; [reflexivity |].
  rewrite has_text_app, IH. cbn. rewrite orb_false_r. apply orb_comm.
Qed.

Lemma has_text_lstrip (s : str) : has_text (lstrip s) = has_text s.
Proof.
  induction s as [| c s IH]; cbn; [reflexivity |].
  destruct (is_space c) eqn:E; cbn; [exact IH | now rewrite E].
Qed.

(** The trimmed text is empty exactly when the text is whitespace only. *)
Lemma strip_nil_iff (s : str) : strip s = [] <-> has_text s = false.
Proof.
  unfold strip, rstrip. split.
  - intros H. apply (f_equal (@rev char)) in H. rewrite rev_involutive in H.
    cbn in H. apply lstrip_nil_iff in H.
    now rewrite has_text_rev, has_text_lstrip in H.
  - intros H. rewrite <- has_text_lstrip, <- has_text_rev in H.
    apply lstrip_nil_iff in H. now rewrite H.
Qed.

Lemma lstrip_head (s : str) (c : char) (t : str) :
  lstrip s = c :: t -> is_space c = false.
Proof.
  induction s as [| d s IH]; cbn; [discriminate |].
  destruct (is_space d) eqn:E; [exact IH |]. intros H. now inversion H; subst.
Qed.

Lemma lstrip_fixed (s : str) (c : char) :
  is_space c = false -> lstrip (s ++ [c]) = lstrip s ++ [c].
Proof.
  intros Hc. induction s as [| d s IH]; cbn.
  - now rewrite Hc.
  - destruct (is_space d); [exact IH | reflexivity].
Qed.

(** Neither end of the trimmed text is whitespace. *)
Lemma strip_ends (s : str) :
  (forall c t, strip s = c :: t -> is_space c = false) /\
  (forall t c, strip s = t ++ [c] -> is_space c = false).
Proof.
  split.
  - intros c t H. destruct (rstrip_prefix (lstrip s)) as [post Hp].
    fold (strip s) in Hp. rewrite H in Hp. exact (lstrip_head _ _ _ Hp).
  - unfold strip, rstrip.
    intros t c H. apply (f_equal (@rev char)) in H.
    rewrite rev_involutive, rev_app_distr in H. cbn in H.
    exact (lstrip_head _ _ _ H).
Qed.

(** ** [rfind] returns the last occurrence *)

Lemma occurs_at_nil (sub : str) (k : Z) :
  occurs_at sub [] k <-> k = 0 /\ starts_with sub [] = true.
Proof.
  unfold occurs_at, len. cbn. split.
  - intros [Hk H]. assert (k = 0) by lia. subst. cbn in H. tauto.
  - intros [-> H]. cbn. split; [lia | exact H].
Qed.

Lemma occurs_at_cons (sub : str) (c : char) (s : str) (k : Z) :
  occurs_at sub (c :: s) k <->
  (k = 0 /\ starts_with sub (c :: s) = true) \/ (0 < k /\ occurs_at sub s (k - 1)).
Proof.
  unfold occurs_at, len. cbn [List.length]. split.
  - intros [Hk H]. destruct (Z.eq_dec k 0) as [-> | Hne].
    + left. cbn in H. tauto.
    + right. split; [lia |]. split; [lia |].
      replace (Z.to_nat k) with (S (Z.to_nat (k - 1))) in H by lia. exact H.
  - intros [[-> H] | [Hpos [Hk H]]].
    + split; [lia | exact H].
    + split; [lia |].
      replace (Z.to_nat k) with (S (Z.to_nat (k - 1))) by lia. exact H.
Qed.

Lemma rfind_from_spec (sub s : str) :
  forall i last,
    (rfind_from sub s i last = last /\ forall k, ~ occurs_at sub s k) \/
    (exists k, rfind_from sub s i last = i + k /\ occurs_at sub s k /\
               forall k', occurs_at sub s k' -> k' <= k).
Proof.
  induction s as [| c s IH]; intros i last.
  - cbn [rfind_from]. destruct (starts_with sub []) eqn:E.
    + right. exists 0. split; [lia |]. split.
      * now apply occurs_at_nil.
      * intros k' H. apply occurs_at_nil in H. lia.
    + left. split; [reflexivity |]. intros k H. apply occurs_at_nil in H.
      destruct H as [_ H]. congruence.
  - cbn [rfind_from].
    destruct (IH (i + 1) (if starts_with sub (c :: s) then i else last))
      as [[Hr Hnone] | [k [Hr [Hocc Hmax]]]].
    + rewrite Hr. destruct (starts_with sub (c :: s)) eqn:E.
      * right. exists 0. split; [lia |]. split.
        -- apply occurs_at_cons. now left.
        -- intros k' H. apply occurs_at_cons in H.
           destruct H as [[-> _] | [_ H]]; [lia | now apply Hnone in H].
      * left. split; [reflexivity |]. intros k H. apply occurs_at_cons in H.
        destruct H as [[_ H] | [_ H]]; [congruence | now apply Hnone in H].
    + right. exists (k + 1). split; [lia |]. split.
      * apply occurs_at_cons. right. pose proof Hocc as [Hk _]. split; [lia |].
        now replace (k + 1 - 1) with k by lia.
      * intros k' H. apply occurs_at_cons in H.
        destruct H as [[-> _] | [_ H]].
        -- destruct Hocc as [Hk _]. lia.
        -- apply Hmax in H. lia.
Qed.

Theorem rfind_last_offset (sub s : str) : last_offset sub s (rfind sub s).
Proof.
  unfold rfind, last_offset.
  destruct (rfind_from_spec sub s 0 (-1)) as [[Hr Hnone] | [k [Hr [Hocc Hmax]]]].
  - left. now split.
  - right. rewrite Hr. cbn. now split.
Qed.

Lemma occurs_at_lt (c : char) (sub s : str) (k : Z) :
  occurs_at (c :: sub) s k -> k < len s.
Proof.
  intros [Hk H]. destruct (Z.eq_dec k (len s)) as [-> | Hne]; [| lia].
  unfold len in H. rewrite Nat2Z.id, skipn_all in H. discriminate.
Qed.

(** For a non-empty pattern the answer lies in [-1 .. len s - 1]. *)
Lemma rfind_range (c : char) (sub s : str) :
  -1 <= rfind (c :: sub) s < Z.max 0 (len s).
Proof.
  pose proof (len_nonneg s) as Hn.
  destruct (rfind_last_offset (c :: sub) s) as [[-> _] | [Hocc _]].
  - destruct (Z.eq_dec (len s) 0) as [E | E]; [| lia].
    apply len_nil_iff in E. subst. cbn. lia.
  - pose proof (occurs_at_lt _ _ _ _ Hocc) as Hlt. destruct Hocc as [Hk _]. lia.
Qed.

Lemma break_point_range (s : str) : -1 <= break_point_of s < Z.max 0 (len s).
Proof.
  unfold break_point_of, newline, period_space. cbv zeta.
  pose proof (rfind_range 10%N [] s). pose proof (rfind_range 46%N [32%N] s). lia.
Qed.

(** ** One iteration *)

(** In every branch the candidate is the slice from [start] to the final
    [end]. *)
Lemma window_slice (text : str) (chunk_size start : Z) :
  fst (window text chunk_size start)
  = slice text start (snd (window text chunk_size start)).
Proof.
  unfold window. destruct (start + chunk_size <? len text); [| reflexivity].
  destruct (past_half _ chunk_size); reflexivity.
Qed.

Lemma window_unsnapped (text : str) (chunk_size start : Z) :
  snaps text chunk_size start = false ->
  window text chunk_size start
  = (slice text start (start + chunk_size), start + chunk_size).
Proof.
  unfold snaps, window. destruct (start + chunk_size <? len text); [| reflexivity].
  cbn [andb]. now intros ->.
Qed.

Lemma window_snapped (text : str) (chunk_size start : Z) :
  snaps text chunk_size start = true ->
  let break_point := break_point_of (slice text start (start + chunk_size)) in
  window text chunk_size start
  = (slice text start (start + break_point + 1), start + break_point + 1)
  /\ start + chunk_size < len text /\ chunk_size < 2 * break_point.
Proof.
  unfold snaps, window. destruct (start + chunk_size <? len text) eqn:E; [| discriminate].
  cbn [andb]. intros H. rewrite H. apply Z.ltb_lt in E. apply past_half_spec in H.
  now repeat split.
Qed.

(** The final [end] is never before the cursor when [chunk_size >= 0]. *)
Lemma window_end_ge (text : str) (chunk_size start : Z) :
  0 <= chunk_size -> start <= snd (window text chunk_size start).
Proof.
  intros Hcs. destruct (snaps text chunk_size start) eqn:E.
  - destruct (window_snapped _ _ _ E) as [-> _]. cbn [snd].
    pose proof (break_point_range (slice text start (start + chunk_size))). lia.
  - rewrite (window_unsnapped _ _ _ E). cbn [snd]. lia.
Qed.

(** The cursor moves forward by at least one character whenever the overlap
    is at most half the window (rounded up): then a snapped end, which lies
    past the halfway mark, is also past the overlap. *)
Lemma window_advances (text : str) (chunk_size chunk_overlap start : Z) :
  chunk_overlap < chunk_size -> 2 * chunk_overlap <= chunk_size + 1 ->
  start < snd (window text chunk_size start) - chunk_overlap.
Proof.
  intros Hlt Hhalf. destruct (snaps text chunk_size start) eqn:E.
  - destruct (window_snapped _ _ _ E) as [-> [_ Hbp]]. cbn [snd]. lia.
  - rewrite (window_unsnapped _ _ _ E). cbn [snd]. lia.
Qed.

(** ** The loops, in terms of the cursor sequence *)

Lemma len_cons {A : Type} (x : A) (s : list A) : len (x :: s) = 1 + len s.
Proof. unfold len. cbn [List.length]. lia. Qed.

Lemma page_loop_cursors (fuel : nat) (page : Page.t) (chunk_size chunk_overlap : Z) :
  forall start chunk_index chunks,
    page_loop fuel page chunk_size chunk_overlap start chunk_index chunks
    = match cursors fuel (Page.text page) chunk_size chunk_overlap start with
      | None => None
      | Some starts =>
          Some (chunks ++ emit_all page chunk_size chunk_index starts,
                chunk_index + len starts)
      end.
Proof.
  induction fuel as [| fuel IH]; intros start chunk_index chunks; [reflexivity |].
  cbn [page_loop cursors].
  destruct (start <? len (Page.text page)).
  - destruct (window (Page.text page) chunk_size start) as [content end_] eqn:W.
    rewrite IH. cbn [snd].
    destruct (cursors fuel (Page.text page) chunk_size chunk_overlap
                (end_ - chunk_overlap)) as [starts |]; [| reflexivity].
    cbn [option_map emit_all]. unfold emit. rewrite W. cbn [fst].
    rewrite <- app_assoc, len_cons. cbn [app]. do 2 f_equal. lia.
  - cbn [emit_all]. rewrite app_nil_r. do 2 f_equal. unfold len. cbn. lia.
Qed.

Lemma pages_loop_cursors (fuel : nat) (chunk_size chunk_overlap : Z)
    (pages : list Page.t) :
  forall chunk_index chunks,
    pages_loop fuel pages chunk_size chunk_overlap chunk_index chunks
    = match pages_cursors fuel pages chunk_size chunk_overlap with
      | None => None
      | Some starts => Some (chunks ++ emit_pages pages chunk_size chunk_index starts)
      end.
Proof.
  induction pages as [| page rest IH]; intros chunk_index chunks.
  - cbn. now rewrite app_nil_r.
  - cbn [pages_loop pages_cursors]. rewrite page_loop_cursors.
    destruct (cursors fuel (Page.text page) chunk_size chunk_overlap 0)
      as [ss |]; [| reflexivity].
    rewrite IH.
    destruct (pages_cursors fuel rest chunk_size chunk_overlap)
      as [starts |]; [| reflexivity].
    cbn [option_map emit_pages]. now rewrite app_assoc.
Qed.

(** What [chunk_text] returns, when it returns. *)
Lemma chunk_text_returned (fuel : nat) (pages : list Page.t)
    (chunk_size chunk_overlap : Z) (chunks : list Chunk.t) :
  chunk_text fuel pages chunk_size chunk_overlap = Returned chunks <->
  chunk_overlap < chunk_size /\
  exists starts,
    pages_cursors fuel pages chunk_size chunk_overlap = Some starts /\
    chunks = emit_pages pages chunk_size 0 starts.
Proof.
  unfold chunk_text. rewrite pages_loop_cursors.
  destruct (chunk_size <=? chunk_overlap) eqn:E.
  - apply Z.leb_le in E. split; [discriminate | lia].
  - apply Z.leb_gt in E.
    destruct (pages_cursors fuel pages chunk_size chunk_overlap) as [starts |].
    + cbn [app]. split.
      * intros H. inversion H; subst. split; [exact E |]. now exists starts.
      * intros [_ [starts' [H ->]]]. now inversion H; subst.
    + split; [discriminate |]. intros [_ [starts' [H _]]]. discriminate.
Qed.

(** ** Fuel *)

(** More fuel does not change a result. *)
Lemma cursors_more_fuel (text : str) (chunk_size chunk_overlap : Z) :
  forall fuel fuel' start starts,
    (fuel <= fuel')%nat ->
    cursors fuel text chunk_size chunk_overlap start = Some starts ->
    cursors fuel' text chunk_size chunk_overlap start = Some starts.
Proof.
  induction fuel as [| fuel IH]; intros fuel' start starts Hle H; [discriminate |].
  destruct fuel' as [| fuel']; [lia |].
  cbn [cursors] in *. destruct (start <? len text); [| exact H].
  destruct (cursors fuel text chunk_size chunk_overlap
              (snd (window text chunk_size start) - chunk_overlap))
    as [ss |] eqn:C; [| discriminate].
  rewrite (IH fuel' _ ss); [exact H | lia | exact C].
Qed.

Lemma pages_cursors_more_fuel (chunk_size chunk_overlap : Z) (fuel fuel' : nat) :
  (fuel <= fuel')%nat ->
  forall pages starts,
    pages_cursors fuel pages chunk_size chunk_overlap = Some starts ->
    pages_cursors fuel' pages chunk_size chunk_overlap = Some starts.
Proof.
  intros Hle. induction pages as [| page rest IH]; intros starts H; [exact H |].
  cbn [pages_cursors] in *.
  destruct (cursors fuel (Page.text page) chunk_size chunk_overlap 0)
    as [ss |] eqn:C; [| discriminate].
  rewrite (cursors_more_fuel _ _ _ _ _ _ _ Hle C).
  destruct (pages_cursors fuel rest chunk_size chunk_overlap)
    as [r |]; [| discriminate].
  now rewrite (IH r eq_refl).
Qed.

Theorem chunk_text_more_fuel (fuel fuel' : nat) (pages : list Page.t)
    (chunk_size chunk_overlap : Z) (chunks : list Chunk.t) :
  (fuel <= fuel')%nat ->
  chunk_text fuel pages chunk_size chunk_overlap = Returned chunks ->
  chunk_text fuel' pages chunk_size chunk_overlap = Returned chunks.
Proof.
  intros Hle H. apply chunk_text_returned in H. destruct H as [Hlt [starts [Hc ->]]].
  apply chunk_text_returned. split; [exact Hlt |]. exists starts. split; [| reflexivity].
  exact (pages_cursors_more_fuel _ _ _ _ Hle _ _ Hc).
Qed.

(** ** Termination when the overlap is at most half the window *)

(** With [2 * chunk_overlap <= chunk_size + 1] the loop of a page ends within
    [len text - start] iterations and its cursors increase strictly. *)
Lemma cursors_terminate (text : str) (chunk_size chunk_overlap : Z) :
  chunk_overlap < chunk_size -> 2 * chunk_overlap <= chunk_size + 1 ->
  forall n start,
    len text - start <= Z.of_nat n ->
    exists starts,
      cursors (S n) text chunk_size chunk_overlap start = Some starts /\
      StronglySorted Z.lt starts /\ Forall (fun s => start <= s) starts.
Proof.
  intros Hlt Hhalf. induction n as [| n IH]; intros start Hn.
  - exists []. cbn [cursors]. destruct (start <? len text) eqn:E.
    + apply Z.ltb_lt in E. lia.
    + repeat split; constructor.
  - remember (S n) as m. cbn [cursors]. subst m.
    destruct (start <? len text) eqn:E.
    + pose proof (window_advances text chunk_size chunk_overlap start Hlt Hhalf) as Hadv.
      destruct (IH (snd (window text chunk_size start) - chunk_overlap))
        as [ss [Hc [Hs Hf]]]; [lia |].
      rewrite Hc. exists (start :: ss). cbn [option_map]. split; [reflexivity |].
      split.
      * constructor; [exact Hs |].
        eapply Forall_impl; [| exact Hf]. cbn. intros a Ha. lia.
      * constructor; [lia |]. eapply Forall_impl; [| exact Hf]. cbn. intros a Ha. lia.
    + exists []. repeat split; constructor.
Qed.

Lemma pages_cursors_terminate (chunk_size chunk_overlap : Z) :
  chunk_overlap < chunk_size -> 2 * chunk_overlap <= chunk_size + 1 ->
  forall pages fuel,
    (enough_fuel pages <= fuel)%nat ->
    exists starts,
      pages_cursors fuel pages chunk_size chunk_overlap = Some starts /\
      Forall (StronglySorted Z.lt) starts.
Proof.
  intros Hlt Hhalf. induction pages as [| page rest IH]; intros fuel Hfuel.
  - exists []. split; [reflexivity | constructor].
  - unfold enough_fuel in Hfuel. cbn [fold_right] in Hfuel.
    destruct (IH fuel) as [r [Hr Hsorted]]; [unfold enough_fuel; lia |].
    destruct (cursors_terminate (Page.text page) _ _ Hlt Hhalf
                (List.length (Page.text page)) 0) as [ss [Hc [Hs _]]];
      [unfold len; lia |].
    assert (Hle : (S (List.length (Page.text page)) <= fuel)%nat) by lia.
    cbn [pages_cursors].
    rewrite (cursors_more_fuel _ _ _ _ _ _ _ Hle Hc), Hr.
    exists (ss :: r). split; [reflexivity | now constructor].
Qed.


(** ** The cursor after a snap *)

Lemma stuck_cursors (fuel : nat) :
  cursors fuel (Page.text stuck_page) 5 4 0 = None.
Proof.
  induction fuel as [| fuel IH]; [reflexivity |].
  cbn [cursors].
  replace (0 <? len (Page.text stuck_page)) with true by reflexivity.
  replace (snd (window (Page.text stuck_page) 5 0) - 4) with 0 by reflexivity.
  now rewrite IH.
Qed.

(** C1, at the input where the code departs from it: with
    [chunk_size = 5] and [chunk_overlap = 4] (so [0 <= chunk_overlap <
    chunk_size]) and the page text "abc\ndefgh", the first window is snapped
    to [end = 4], the new cursor [end - chunk_overlap] is 0 again and not
    greater than the old one, and the loop of that page never ends: whatever
    the fuel, [chunk_text] runs out of it. *)
Theorem snapped_cursor_does_not_advance :
  0 <= 4 < 5 /\
  snaps (Page.text stuck_page) 5 0 = true /\
  window (Page.text stuck_page) 5 0 = (of_string ("abc" ++ nl), 4) /\
  snd (window (Page.text stuck_page) 5 0) - 4 = 0 /\
  forall fuel, chunk_text fuel [stuck_page] 5 4 = OutOfFuel.
Proof.
  split; [lia |]. split; [reflexivity |]. split; [reflexivity |].
  split; [reflexivity |]. intros fuel.
  unfold chunk_text. cbn [Z.leb Z.compare Pos.compare Pos.compare_cont].
  rewrite pages_loop_cursors. cbn [pages_cursors]. now rewrite stuck_cursors.
Qed.

(** ** The configuration check *)



(** C10: no pages, no chunks. *)
Theorem no_pages_no_chunks (fuel : nat) (chunk_size chunk_overlap : Z) :
  chunk_overlap < chunk_size ->
  chunk_text fuel [] chunk_size chunk_overlap = Returned [].
Proof.
  intros H. unfold chunk_text.
  destruct (chunk_size <=? chunk_overlap) eqn:E; [| reflexivity].
  apply Z.leb_le in E. lia.
Qed.

Lemma no_pages_no_chunks_witness : chunk_text 0 [] 1000 200 = Returned [].
Proof. apply (no_pages_no_chunks 0 1000 200). lia. Defined.

(** ** Cursors before the text *)

(** A cursor in [-chunk_size + 1 .. -1] on a text longer than [chunk_size]
    selects nothing: [text[start : start + chunk_size]] runs from an offset
    near the end of the text back to one near its beginning. *)
Lemma window_negative_cursor (text : str) (chunk_size start : Z) :
  - chunk_size < start < 0 -> chunk_size < len text ->
  window text chunk_size start = ([], start + chunk_size).
Proof.
  intros Hs Hn.
  assert (He : slice text start (start + chunk_size) = []).
  { apply len_nil_iff. rewrite len_slice. unfold clamp.
    replace (start <? 0) with true by (symmetry; apply Z.ltb_lt; lia).
    replace (start + chunk_size <? 0) with false by (symmetry; apply Z.ltb_ge; lia).
    lia. }
  unfold window. rewrite He.
  replace (break_point_of []) with (-1) by reflexivity.
  rewrite past_half_ltb.
  replace (chunk_size <? 2 * -1) with false by (symmetry; apply Z.ltb_ge; lia).
  now destruct (start + chunk_size <? len text).
Qed.

(** With [0 <= chunk_overlap < chunk_size] no cursor of a page is
    [-chunk_size] or less. *)
Lemma cursors_lower_bound (text : str) (chunk_size chunk_overlap : Z) :
  0 <= chunk_overlap < chunk_size ->
  forall fuel start starts,
    0 <= start \/ (- chunk_size < start /\ chunk_size < len text) ->
    cursors fuel text chunk_size chunk_overlap start = Some starts ->
    Forall (fun s => - chunk_size < s) starts.
Proof.
  intros Hov. induction fuel as [| fuel IH]; intros start starts Hinv H;
    [discriminate |].
  cbn [cursors] in H. destruct (start <? len text) eqn:E.
  - destruct (cursors fuel text chunk_size chunk_overlap
                (snd (window text chunk_size start) - chunk_overlap))
      as [ss |] eqn:C; [| discriminate].
    cbn in H. inversion H; subst. constructor; [lia |].
    refine (IH _ _ _ C).
    destruct (Z_lt_le_dec start 0) as [Hneg | Hpos].
    + destruct Hinv as [Hinv | [Hlo Hn]]; [lia |].
      rewrite window_negative_cursor by lia. cbn [snd].
      destruct (Z_lt_le_dec (start + chunk_size - chunk_overlap) 0); [right | left]; lia.
    + destruct (snaps text chunk_size start) eqn:S.
      * destruct (window_snapped _ _ _ S) as [-> [Hn Hbp]]. cbn [snd].
        set (bp := break_point_of (slice text start (start + chunk_size))) in *.
        destruct (Z_lt_le_dec (start + bp + 1 - chunk_overlap) 0); [right | left]; lia.
      * rewrite (window_unsnapped _ _ _ S). cbn [snd]. left. lia.
  - inversion H; subst. constructor.
Qed.

(** ** Boundary snapping *)



(** ** The output, page by page *)

Lemma cursors_head (text : str) (chunk_size chunk_overlap : Z) :
  forall fuel start s rest,
    cursors fuel text chunk_size chunk_overlap start = Some (s :: rest) ->
    s = start /\ start < len text /\
    exists fuel',
      cursors fuel' text chunk_size chunk_overlap
        (snd (window text chunk_size start) - chunk_overlap) = Some rest.
Proof.
  intros [| fuel] start s rest H; [discriminate |].
  cbn [cursors] in H. destruct (start <? len text) eqn:E; [| discriminate].
  apply Z.ltb_lt in E.
  destruct (cursors fuel text chunk_size chunk_overlap
              (snd (window text chunk_size start) - chunk_overlap))
    as [ss |] eqn:C; [| discriminate].
  cbn in H. inversion H; subst. repeat split; [exact E |]. now exists fuel.
Qed.

(** Every cursor of a page lies before the end of its text. *)
Lemma cursors_inside (text : str) (chunk_size chunk_overlap : Z) :
  forall starts fuel start,
    cursors fuel text chunk_size chunk_overlap start = Some starts ->
    Forall (fun s => s < len text) starts.
Proof.
  induction starts as [| s rest IH]; intros fuel start H; [constructor |].
  destruct (cursors_head _ _ _ _ _ _ _ H) as [-> [Hlt [fuel' H']]].
  constructor; [exact Hlt | exact (IH _ _ H')].
Qed.

(** Two cursors that follow each other: the second is the final [end] of
    the first window minus the overlap. *)
Lemma cursors_consecutive (text : str) (chunk_size chunk_overlap : Z) :
  forall before fuel start s1 s2 after,
    cursors fuel text chunk_size chunk_overlap start
    = Some (before ++ s1 :: s2 :: after) ->
    s2 = snd (window text chunk_size s1) - chunk_overlap.
Proof.
  induction before as [| b before IH]; intros fuel start s1 s2 after H.
  - cbn [app] in H.
    destruct (cursors_head _ _ _ _ _ _ _ H) as [-> [_ [fuel' H']]].
    now destruct (cursors_head _ _ _ _ _ _ _ H') as [-> _].
  - cbn [app] in H.
    destruct (cursors_head _ _ _ _ _ _ _ H) as [_ [_ [fuel' H']]].
    exact (IH _ _ _ _ _ H').
Qed.

Lemma pages_cursors_Forall2 (fuel : nat) (chunk_size chunk_overlap : Z) :
  forall pages starts,
    pages_cursors fuel pages chunk_size chunk_overlap = Some starts ->
    Forall2 (fun page ss =>
               cursors fuel (Page.text page) chunk_size chunk_overlap 0 = Some ss)
      pages starts.
Proof.
  induction pages as [| page rest IH]; intros starts H.
  - cbn in H. inversion H. constructor.
  - cbn [pages_cursors] in H.
    destruct (cursors fuel (Page.text page) chunk_size chunk_overlap 0)
      as [ss |] eqn:C; [| discriminate].
    destruct (pages_cursors fuel rest chunk_size chunk_overlap)
      as [r |]; [| discriminate].
    cbn in H. inversion H; subst. constructor; [exact C | now apply IH].
Qed.

Lemma emit_pages_blocks (fuel : nat) (chunk_size chunk_overlap : Z) :
  forall pages starts chunk_index,
    Forall2 (fun page ss =>
               cursors fuel (Page.text page) chunk_size chunk_overlap 0 = Some ss)
      pages starts ->
    exists blocks,
      emit_pages pages chunk_size chunk_index starts = List.concat blocks /\
      Forall2 (block_of fuel chunk_size chunk_overlap) pages blocks.
Proof.
  intros pages starts chunk_index H. revert chunk_index.
  induction H as [| page ss pages starts Hc _ IH]; intros chunk_index.
  - exists []. split; [reflexivity | constructor].
  - destruct (IH (chunk_index + len ss)) as [blocks [He Hb]].
    exists (emit_all page chunk_size chunk_index ss :: blocks).
    cbn [emit_pages List.concat]. rewrite He. split; [reflexivity |].
    constructor; [| exact Hb]. now exists chunk_index, ss.
Qed.

(** The output of [chunk_text] is one block of chunks per page, the blocks
    in the order of the pages. *)
Theorem chunk_text_blocks (fuel : nat) (pages : list Page.t)
    (chunk_size chunk_overlap : Z) (chunks : list Chunk.t) :
  chunk_text fuel pages chunk_size chunk_overlap = Returned chunks ->
  exists blocks,
    chunks = List.concat blocks /\
    Forall2 (block_of fuel chunk_size chunk_overlap) pages blocks.
Proof.
  intros H. apply chunk_text_returned in H. destruct H as [_ [starts [Hc ->]]].
  apply (emit_pages_blocks fuel chunk_size chunk_overlap).
  now apply pages_cursors_Forall2.
Qed.

Lemma Forall_emit_all (Q : Chunk.t -> Prop) (page : Page.t) (chunk_size : Z)
    (P : Z -> Prop) :
  (forall chunk_index start, P start -> Q (emit page chunk_size chunk_index start)) ->
  forall starts chunk_index,
    Forall P starts -> Forall Q (emit_all page chunk_size chunk_index starts).
Proof.
  intros HQ. induction starts as [| s rest IH]; intros chunk_index HP; cbn [emit_all].
  - constructor.
  - inversion HP; subst. constructor; [now apply HQ | now apply IH].
Qed.

Lemma Forall_blocks {A B : Type} (R : A -> list B -> Prop) (Q : A -> B -> Prop)
    (xs : list A) (blocks : list (list B)) :
  (forall x block, R x block -> Forall (Q x) block) ->
  Forall2 R xs blocks ->
  Forall (fun b => exists x, In x xs /\ Q x b) (List.concat blocks).
Proof.
  intros HR H. induction H as [| x block xs blocks Hx _ IH]; cbn [List.concat].
  - constructor.
  - apply Forall_app. split.
    + eapply Forall_impl; [| exact (HR _ _ Hx)]. cbn. intros b Hb.
      exists x. split; [now left | exact Hb].
    + eapply Forall_impl; [| exact IH]. cbn. intros b [y [Hy Hb]].
      exists y. split; [now right | exact Hb].
Qed.

(** ** Chunk indices *)

Lemma zrange_app (a b : nat) :
  forall lo, zrange lo (a + b) = zrange lo a ++ zrange (lo + Z.of_nat a) b.
Proof.
  induction a as [| a IH]; intros lo.
  - cbn. now rewrite Z.add_0_r.
  - cbn [Nat.add zrange app]. rewrite IH. do 3 f_equal. lia.
Qed.

Lemma emit_all_length (page : Page.t) (chunk_size : Z) :
  forall starts chunk_index,
    List.length (emit_all page chunk_size chunk_index starts) = List.length starts.
Proof.
  induction starts as [| s rest IH]; intros chunk_index; cbn; [reflexivity |].
  now rewrite IH.
Qed.

Lemma emit_all_index (page : Page.t) (chunk_size : Z) :
  forall starts chunk_index,
    map Chunk.chunk_index (emit_all page chunk_size chunk_index starts)
    = zrange chunk_index (List.length starts).
Proof.
  induction starts as [| s rest IH]; intros chunk_index; cbn; [reflexivity |].
  now rewrite IH.
Qed.

Lemma emit_pages_index (chunk_size : Z) :
  forall pages starts chunk_index,
    map Chunk.chunk_index (emit_pages pages chunk_size chunk_index starts)
    = zrange chunk_index
        (List.length (emit_pages pages chunk_size chunk_index starts)).
Proof.
  induction pages as [| page rest IH]; intros [| ss starts] chunk_index;
    try reflexivity.
  cbn [emit_pages]. rewrite map_app, length_app, zrange_app.
  rewrite emit_all_index, emit_all_length, IH. reflexivity.
Qed.

(** X2: The counter is global: the indices of the output are [0, 1, ..., N - 1]
    in output order. *)
Theorem chunk_index_contiguous (fuel : nat) (pages : list Page.t)
    (chunk_size chunk_overlap : Z) (chunks : list Chunk.t) :
  chunk_text fuel pages chunk_size chunk_overlap = Returned chunks ->
  map Chunk.chunk_index chunks = zrange 0 (List.length chunks).
Proof.
  intros H. apply chunk_text_returned in H. destruct H as [_ [starts [_ ->]]].
  apply emit_pages_index.
Qed.

(** X3: With an overlap of at most half the window, the cursors of every page
    increase strictly, so the chunks of a page come in increasing offset
    order. *)
Theorem cursors_increase (pages : list Page.t) (chunk_size chunk_overlap : Z)
    (fuel : nat) (starts : list (list Z)) :
  chunk_overlap < chunk_size -> 2 * chunk_overlap <= chunk_size + 1 ->
  pages_cursors fuel pages chunk_size chunk_overlap = Some starts ->
  Forall (StronglySorted Z.lt) starts.
Proof.
  intros Hlt Hhalf H.
  destruct (pages_cursors_terminate _ _ Hlt Hhalf pages
              (Nat.max fuel (enough_fuel pages))) as [starts' [H' Hs]]; [lia |].
  assert (Hle : (fuel <= Nat.max fuel (enough_fuel pages))%nat) by lia.
  rewrite (pages_cursors_more_fuel _ _ _ _ Hle _ _ H) in H'.
  now inversion H'; subst.
Qed.

(** ** Provenance *)

Lemma window_infix (text : str) (chunk_size start : Z) :
  exists pre post, text = pre ++ strip (fst (window text chunk_size start)) ++ post.
Proof.
  rewrite window_slice.
  destruct (slice_infix text start (snd (window text chunk_size start)))
    as [pre [post H]].
  remember (slice text start (snd (window text chunk_size start))) as piece.
  clear Heqpiece. destruct (strip_infix piece) as [pre' [post' H']].
  exists (pre ++ pre'), (post' ++ post).
  transitivity (pre ++ piece ++ post); [exact H |].
  rewrite H' at 1. now rewrite <- !app_assoc.
Qed.

Lemma emit_drawn_from (page : Page.t) (chunk_size chunk_index start : Z) :
  start < len (Page.text page) ->
  drawn_from chunk_size page (emit page chunk_size chunk_index start).
Proof.
  intros Hs. unfold drawn_from, emit. cbn.
  repeat split; [now exists start | apply window_infix].
Qed.

Lemma block_drawn_from (fuel : nat) (chunk_size chunk_overlap : Z)
    (page : Page.t) (block : list Chunk.t) :
  block_of fuel chunk_size chunk_overlap page block ->
  Forall (drawn_from chunk_size page) block.
Proof.
  intros [chunk_index [starts [Hc ->]]].
  apply Forall_emit_all with (P := fun s => s < len (Page.text page)).
  - intros i s Hs. now apply emit_drawn_from.
  - exact (cursors_inside _ _ _ _ _ _ Hc).
Qed.

(** C9: the output splits into one block of chunks per input page, in page
    order, and every chunk of a page's block copies that page's [source] and
    [page_number] and has as text a trimmed slice of that page's text, a
    contiguous piece of it; no chunk is built from two pages. *)
Theorem chunks_drawn_from_one_page (fuel : nat) (pages : list Page.t)
    (chunk_size chunk_overlap : Z) (chunks : list Chunk.t) :
  chunk_text fuel pages chunk_size chunk_overlap = Returned chunks ->
  exists blocks,
    chunks = List.concat blocks /\
    Forall2 (fun page block => Forall (drawn_from chunk_size page) block)
      pages blocks.
Proof.
  intros H. destruct (chunk_text_blocks _ _ _ _ _ H) as [blocks [-> Hb]].
  exists blocks. split; [reflexivity |].
  eapply Forall2_impl; [| exact Hb].
  intros page block. apply block_drawn_from.
Qed.

Lemma chunks_drawn_from_one_page_witness :
  exists blocks,
    emit_pages two_pages 6 0 [[0; 4]; [0; 4]] = List.concat blocks /\
    Forall2 (fun page block => Forall (drawn_from 6 page) block)
      two_pages blocks.
Proof.
  apply (chunks_drawn_from_one_page 3 two_pages 6 2). reflexivity.
Defined.

(** ** Empty chunks *)





(** ** Order of the chunks of a page *)

(** C6, at the input where the code departs from it: with
    [chunk_size = 10], [chunk_overlap = 8] and the page text
    "abcdef\nghijk" the call returns eight chunks indexed 0 to 7, but the
    first window is snapped to [end = 7] and the second chunk is cut at
    cursor [7 - 8 = -1], before the first; its candidate [text[-1:9]] is
    empty. The chunks of the page are not in increasing offset order. *)
Theorem snapped_cursor_steps_back :
  0 <= 8 < 10 /\
  cursors 9 (Page.text backstep_page) 10 8 0 = Some [0; -1; 1; 3; 5; 7; 9; 11] /\
  exists chunks,
    chunk_text 9 [backstep_page] 10 8 = Returned chunks /\
    map Chunk.chunk_index chunks = [0; 1; 2; 3; 4; 5; 6; 7] /\
    map Chunk.text chunks
    = [of_string "abcdef"; []; of_string ("bcdef" ++ nl ++ "ghij");
       of_string ("def" ++ nl ++ "ghijk"); of_string ("f" ++ nl ++ "ghijk");
       of_string "ghijk"; of_string "ijk"; of_string "k"].
Proof.
  split; [lia |]. split; [reflexivity |].
  eexists. split; [vm_compute; reflexivity |]. split; reflexivity.
Qed.

(** ** Short pages *)

(** C2 fails on the code: the page text "abcde" is shorter than
    [chunk_size = 6] and [chunk_overlap = 4] is smaller than [chunk_size],
    yet the page gives three chunks, cut at the cursors 0, 2 and 4: after the
    first window the cursor is [6 - 4 = 2], still inside the text. *)
Lemma short_page_gives_three_chunks :
  len (Page.text short_page) < 6 /\ 0 <= 4 < 6 /\
  cursors 4 (Page.text short_page) 6 4 0 = Some [0; 2; 4] /\
  map Chunk.text (emit_pages [short_page] 6 0 [[0; 2; 4]])
  = [of_string "abcde"; of_string "cde"; of_string "e"] /\
  ~ single_chunk short_page 6 4.
Proof.
  split; [reflexivity |]. split; [lia |]. split; [reflexivity |].
  split; [reflexivity |]. intros [fuel H].
  assert (H4 : chunk_text 4 [short_page] 6 4
               = Returned (emit_pages [short_page] 6 0 [[0; 2; 4]]))
    by reflexivity.
  apply (chunk_text_more_fuel _ (Nat.max fuel 4)) in H; [| lia].
  apply (chunk_text_more_fuel _ (Nat.max fuel 4)) in H4; [| lia].
  rewrite H4 in H. discriminate.
Qed.

(** C2 as the code has it: a page whose text is non-empty, shorter than
    [chunk_size] and at most [chunk_size - chunk_overlap] characters long
    gives exactly one chunk, the whole page text trimmed. This holds for the
    loop of the page whatever the counter and the chunks before it, and for
    [chunk_text] on that page. *)
Theorem short_page_single_chunk (fuel : nat) (page : Page.t)
    (chunk_size chunk_overlap chunk_index : Z) (chunks : list Chunk.t) :
  0 < len (Page.text page) ->
  len (Page.text page) < chunk_size ->
  len (Page.text page) <= chunk_size - chunk_overlap ->
  (2 <= fuel)%nat ->
  page_loop fuel page chunk_size chunk_overlap 0 chunk_index chunks
  = Some (chunks ++ [Chunk.mk (strip (Page.text page)) (Page.source page)
                       (Page.page_number page) chunk_index],
          chunk_index + 1) /\
  single_chunk page chunk_size chunk_overlap.
Proof.
  intros Hpos Hshort Hstep Hfuel.
  assert (Hw : window (Page.text page) chunk_size 0
               = (Page.text page, chunk_size)).
  { unfold window. cbn [Z.add].
    replace (chunk_size <? len (Page.text page)) with false
      by (symmetry; apply Z.ltb_ge; lia).
    rewrite slice_whole by lia. reflexivity. }
  assert (Hc : forall n, cursors (S (S n)) (Page.text page) chunk_size chunk_overlap 0
                         = Some [0]).
  { intros n. cbn [cursors].
    replace (0 <? len (Page.text page)) with true
      by (symmetry; apply Z.ltb_lt; lia).
    rewrite Hw. cbn [snd].
    replace (chunk_size - chunk_overlap <? len (Page.text page)) with false
      by (symmetry; apply Z.ltb_ge; lia).
    reflexivity. }
  split.
  - destruct fuel as [| [| n]]; [lia | lia |].
    rewrite page_loop_cursors, Hc. cbn [emit_all]. unfold emit. rewrite Hw.
    reflexivity.
  - exists 2%nat. apply chunk_text_returned. split; [lia |].
    exists [[0]]. cbn [pages_cursors]. rewrite Hc. split; [reflexivity |].
    cbn [emit_pages emit_all app]. unfold emit. rewrite Hw. reflexivity.
Qed.

Lemma short_page_single_chunk_witness :
  page_loop 2 short_page 1000 200 0 7 []
  = Some ([Chunk.mk (of_string "abcde") (of_string "doc.pdf") 1 7], 8) /\
  single_chunk short_page 1000 200.
Proof.
  apply (short_page_single_chunk 2 short_page 1000 200 7 []).
  - reflexivity.
  - reflexivity.
  - vm_compute. discriminate.
  - lia.
Defined.

(** ** Overlap of consecutive windows *)

(** C7 fails on the code: on the page text "abcde" with [chunk_size = 6] and
    [chunk_overlap = 4] the cursors are 0, 2 and 4, so the chunks at 0 and 2
    follow each other and neither is the last of the page; the second cursor
    is the first [end] minus the overlap, [6 - 4], but the first window is
    cut off by the end of the page and the two candidates, "abcde" and "cde",
    share three characters, not four. *)
Lemma clipped_windows_share_less :
  cursors 4 (Page.text short_page) 6 4 0 = Some [0; 2; 4] /\
  2 = snd (window (Page.text short_page) 6 0) - 4 /\
  fst (window (Page.text short_page) 6 0) = of_string "abcde" /\
  fst (window (Page.text short_page) 6 2) = of_string "cde" /\
  ~ shares_overlap 4 (fst (window (Page.text short_page) 6 0))
      (fst (window (Page.text short_page) 6 2)).
Proof.
  split; [reflexivity |]. split; [reflexivity |]. split; [reflexivity |].
  split; [reflexivity |].
  intros (shared & pre & post & Hlen & _ & Hnext).
  apply (f_equal len) in Hnext. rewrite len_app, Hlen in Hnext.
  pose proof (len_nonneg post) as Hpost.
  replace (len (fst (window (Page.text short_page) 6 2))) with 3 in Hnext
    by reflexivity.
  lia.
Qed.

(** C7 as the code has it: of two cursors that follow each other on a page,
    the second is the final [end] of the first window minus
    [chunk_overlap]. When moreover the first window starts at an offset
    [>= 0] and ends inside the page ([end <= len(text)]) and both candidates
    are at least [chunk_overlap] characters long, the last [chunk_overlap]
    characters of the first candidate are the first [chunk_overlap]
    characters of the second. *)
Theorem consecutive_windows_overlap (fuel : nat) (text : str)
    (chunk_size chunk_overlap start : Z) (before after : list Z) (s1 s2 : Z) :
  cursors fuel text chunk_size chunk_overlap start
  = Some (before ++ s1 :: s2 :: after) ->
  s2 = snd (window text chunk_size s1) - chunk_overlap /\
  (0 <= chunk_overlap < chunk_size ->
   0 <= s1 ->
   snd (window text chunk_size s1) <= len text ->
   chunk_overlap <= len (fst (window text chunk_size s1)) ->
   chunk_overlap <= len (fst (window text chunk_size s2)) ->
   shares_overlap chunk_overlap
     (fst (window text chunk_size s1)) (fst (window text chunk_size s2))).
Proof.
  intros H. pose proof (cursors_consecutive _ _ _ _ _ _ _ _ _ H) as Hs2.
  split; [exact Hs2 |]. intros Hov Hs1 Hend Hlen1 Hlen2.
  pose proof (window_end_ge text chunk_size s1 ltac:(lia)) as Hge1.
  pose proof (window_end_ge text chunk_size s2 ltac:(lia)) as Hge2.
  rewrite !window_slice in *.
  set (e1 := snd (window text chunk_size s1)) in *.
  set (e2 := snd (window text chunk_size s2)) in *.
  rewrite len_slice_inside in Hlen1 by lia.
  assert (He : e1 <= e2).
  { rewrite len_slice in Hlen2.
    rewrite (clamp_inside (len text) s2) in Hlen2 by lia.
    unfold clamp in Hlen2. destruct (e2 <? 0) eqn:E; [apply Z.ltb_lt in E |]; lia. }
  exists (slice text s2 e1), (slice text s1 s2), (slice text e1 e2).
  split; [rewrite len_slice_inside; lia |]. split; apply slice_split; lia.
Qed.

Lemma consecutive_windows_overlap_witness :
  4 = snd (window (of_string "abcdefgh") 6 0) - 2 /\
  shares_overlap 2 (fst (window (of_string "abcdefgh") 6 0))
    (fst (window (of_string "abcdefgh") 6 4)).
Proof.
  assert (H : cursors 3 (of_string "abcdefgh") 6 2 0 = Some ([] ++ 0 :: 4 :: []))
    by reflexivity.
  destruct (consecutive_windows_overlap 3 _ 6 2 0 [] [] 0 4 H) as [H1 H2].
  split; [exact H1 |]. apply H2.
  - lia.
  - lia.
  - vm_compute. discriminate.
  - vm_compute. discriminate.
  - vm_compute. discriminate.
Defined.

(** ** Width of an unsnapped window *)

(** C8 fails on the code: on the page text "abcde" with [chunk_size = 6] and
    [chunk_overlap = 4] the chunk at cursor 0 is not snapped and is not the
    last of its page (the cursors are 0, 2 and 4), and its candidate has five
    characters, not six. *)
Lemma unsnapped_window_narrower :
  cursors 4 (Page.text short_page) 6 4 0 = Some [0; 2; 4] /\
  snaps (Page.text short_page) 6 0 = false /\
  len (fst (window (Page.text short_page) 6 0)) = 5 /\
  len (fst (window (Page.text short_page) 6 0)) <> 6.
Proof.
  split; [reflexivity |]. split; [reflexivity |]. split; [reflexivity |].
  vm_compute. discriminate.
Qed.

(** C8 as the code has it: the candidate of a window that was not snapped
    has at most [chunk_size] characters; when its cursor lies in
    [0 .. len(text)] it has [min(chunk_size, len(text) - start)] of them,
    that is [chunk_size] exactly when the window ends inside the page, and
    the rest of the page otherwise. *)
Theorem unsnapped_window_width (text : str) (chunk_size start : Z) :
  0 <= chunk_size ->
  snaps text chunk_size start = false ->
  len (fst (window text chunk_size start)) <= chunk_size /\
  (0 <= start <= len text ->
   len (fst (window text chunk_size start)) = Z.min chunk_size (len text - start) /\
   (start + chunk_size <= len text ->
    len (fst (window text chunk_size start)) = chunk_size) /\
   (len text < start + chunk_size ->
    len (fst (window text chunk_size start)) = len text - start)).
Proof.
  intros Hcs Hsnap. rewrite (window_unsnapped _ _ _ Hsnap). cbn [fst].
  pose proof (len_nonneg text) as Hn. rewrite len_slice. split.
  - unfold clamp.
    destruct (start <? 0) eqn:E1; [apply Z.ltb_lt in E1 | apply Z.ltb_ge in E1];
      (destruct (start + chunk_size <? 0) eqn:E2;
       [apply Z.ltb_lt in E2 | apply Z.ltb_ge in E2]); lia.
  - intros Hstart. rewrite (clamp_inside (len text) start) by lia.
    unfold clamp. destruct (start + chunk_size <? 0) eqn:E;
      [apply Z.ltb_lt in E | apply Z.ltb_ge in E]; lia.
Qed.

Lemma unsnapped_window_width_witness :
  len (fst (window (repeat 65%N 1500) 1000 0)) <= 1000 /\
  (0 <= 0 <= len (repeat 65%N 1500) ->
   len (fst (window (repeat 65%N 1500) 1000 0))
   = Z.min 1000 (len (repeat 65%N 1500) - 0) /\
   (0 + 1000 <= len (repeat 65%N 1500) ->
    len (fst (window (repeat 65%N 1500) 1000 0)) = 1000) /\
   (len (repeat 65%N 1500) < 0 + 1000 ->
    len (fst (window (repeat 65%N 1500) 1000 0)) = len (repeat 65%N 1500) - 0)).
Proof.
  apply (unsnapped_window_width (repeat 65%N 1500) 1000 0).
  - lia.
  - vm_compute. reflexivity.
Defined.

(** ** The scenarios of the specification *)

(** Scenario A: 1500 letters with the default configuration give two
    chunks, of 1000 and of 700 characters, the second cut at offset 800. *)
Example scenario_a :
  cursors 3 (repeat 65%N 1500) 1000 200 0 = Some [0; 800] /\
  map (fun chunk => (len (Chunk.text chunk), Chunk.chunk_index chunk))
    (emit_pages [Page.mk (repeat 65%N 1500) (of_string "doc.pdf") 1]
       1000 0 [[0; 800]])
  = [(1000, 0); (700, 1)].
Proof. split; vm_compute; reflexivity. Qed.

(** Scenario B: 500 characters with [chunk_size = 1000] give one chunk. *)
Example scenario_b :
  chunk_text 2 [Page.mk (repeat 65%N 500) (of_string "doc.pdf") 1] 1000 200
  = Returned [Chunk.mk (repeat 65%N 500) (of_string "doc.pdf") 1 0].
Proof. vm_compute. reflexivity. Qed.

(** Scenario C: two pages with two chunks each give the indices 0 to 3, the
    first two chunks on page 1 and the last two on page 2. *)
Example scenario_c :
  exists chunks,
    chunk_text 3 two_pages 6 2 = Returned chunks /\
    map (fun chunk => (Chunk.chunk_index chunk, Chunk.page_number chunk)) chunks
    = [(0, 1); (1, 1); (2, 2); (3, 2)].
Proof. eexists. split; vm_compute; reflexivity. Qed.

(** * Further properties of [chunk_text] *)

(** ** Termination, indices and order *)


Lemma chunk_index_contiguous_witness :
  map Chunk.chunk_index (emit_pages two_pages 6 0 [[0; 4]; [0; 4]])
  = zrange 0 (List.length (emit_pages two_pages 6 0 [[0; 4]; [0; 4]])).
Proof.
  apply (chunk_index_contiguous 3 two_pages 6 2). reflexivity.
Defined.

Lemma cursors_increase_witness :
  Forall (StronglySorted Z.lt) [[0; 4]; [0; 4]].
Proof.
  apply (cursors_increase two_pages 6 2 3).
  - lia.
  - lia.
  - reflexivity.
Defined.

(** ** Pages compose *)

Lemma pages_cursors_app (fuel : nat) (chunk_size chunk_overlap : Z) :
  forall pages1 pages2 starts1 starts2,
    pages_cursors fuel pages1 chunk_size chunk_overlap = Some starts1 ->
    pages_cursors fuel pages2 chunk_size chunk_overlap = Some starts2 ->
    pages_cursors fuel (pages1 ++ pages2) chunk_size chunk_overlap
    = Some (starts1 ++ starts2).
Proof.
  induction pages1 as [| page rest IH]; intros pages2 starts1 starts2 H1 H2.
  - cbn in H1. inversion H1; subst. exact H2.
  - cbn [pages_cursors app] in *.
    destruct (cursors fuel (Page.text page) chunk_size chunk_overlap 0)
      as [ss |]; [| discriminate].
    destruct (pages_cursors fuel rest chunk_size chunk_overlap)
      as [r |] eqn:R; [| discriminate].
    cbn in H1. inversion H1; subst.
    now rewrite (IH pages2 r starts2 eq_refl H2).
Qed.

Lemma pages_cursors_length (fuel : nat) (chunk_size chunk_overlap : Z) :
  forall pages starts,
    pages_cursors fuel pages chunk_size chunk_overlap = Some starts ->
    List.length pages = List.length starts.
Proof.
  intros pages starts H. apply pages_cursors_Forall2 in H.
  induction H; cbn; congruence.
Qed.

Lemma emit_all_shift (page : Page.t) (chunk_size k : Z) :
  forall starts chunk_index,
    emit_all page chunk_size (chunk_index + k) starts
    = map (shift_index k) (emit_all page chunk_size chunk_index starts).
Proof.
  induction starts as [| s rest IH]; intros chunk_index; cbn [emit_all map];
    [reflexivity |].
  replace (chunk_index + k + 1) with (chunk_index + 1 + k) by lia.
  now rewrite IH.
Qed.

Lemma emit_pages_shift (chunk_size k : Z) :
  forall pages starts chunk_index,
    emit_pages pages chunk_size (chunk_index + k) starts
    = map (shift_index k) (emit_pages pages chunk_size chunk_index starts).
Proof.
  induction pages as [| page rest IH]; intros [| ss starts] chunk_index;
    try reflexivity.
  cbn [emit_pages]. rewrite map_app, emit_all_shift.
  replace (chunk_index + k + len ss) with (chunk_index + len ss + k) by lia.
  now rewrite IH.
Qed.

Lemma emit_pages_length (chunk_size : Z) :
  forall pages starts chunk_index chunk_index',
    List.length (emit_pages pages chunk_size chunk_index starts)
    = List.length (emit_pages pages chunk_size chunk_index' starts).
Proof.
  induction pages as [| page rest IH]; intros [| ss starts] i i'; try reflexivity.
  cbn [emit_pages]. rewrite !length_app, !emit_all_length.
  now rewrite (IH starts (i + len ss) (i' + len ss)).
Qed.

Lemma emit_pages_app (chunk_size : Z) :
  forall pages1 starts1 pages2 starts2 chunk_index,
    List.length pages1 = List.length starts1 ->
    emit_pages (pages1 ++ pages2) chunk_size chunk_index (starts1 ++ starts2)
    = emit_pages pages1 chunk_size chunk_index starts1
      ++ emit_pages pages2 chunk_size
           (chunk_index + len (emit_pages pages1 chunk_size chunk_index starts1))
           starts2.
Proof.
  induction pages1 as [| page rest IH]; intros [| ss starts1] pages2 starts2 i Hlen;
    try discriminate.
  - cbn. now rewrite Z.add_0_r.
  - cbn [app emit_pages]. rewrite IH by (cbn in Hlen; lia).
    rewrite <- app_assoc. f_equal. f_equal.
    assert (He : len (emit_all page chunk_size i ss) = len ss)
      by (unfold len; now rewrite emit_all_length).
    rewrite len_app, He. f_equal. lia.
Qed.

(** X4: Chunking two page lists one after the other gives the chunks of the
    first followed by the chunks of the second with their indices moved up
    by the number of chunks of the first: only the counter links the
    pages. *)
Theorem chunk_text_app (fuel : nat) (pages1 pages2 : list Page.t)
    (chunk_size chunk_overlap : Z) (chunks1 chunks2 : list Chunk.t) :
  chunk_text fuel pages1 chunk_size chunk_overlap = Returned chunks1 ->
  chunk_text fuel pages2 chunk_size chunk_overlap = Returned chunks2 ->
  chunk_text fuel (pages1 ++ pages2) chunk_size chunk_overlap
  = Returned (chunks1 ++ map (shift_index (len chunks1)) chunks2).
Proof.
  intros H1 H2.
  apply chunk_text_returned in H1. destruct H1 as [Hlt [starts1 [Hc1 ->]]].
  apply chunk_text_returned in H2. destruct H2 as [_ [starts2 [Hc2 ->]]].
  apply chunk_text_returned. split; [exact Hlt |].
  exists (starts1 ++ starts2). split; [now apply pages_cursors_app |].
  rewrite emit_pages_app by (eapply pages_cursors_length; eassumption).
  f_equal. rewrite <- emit_pages_shift. f_equal.
Qed.

Lemma chunk_text_app_witness :
  chunk_text 3 ([blank_run_page] ++ two_pages) 6 2
  = Returned (emit_pages [blank_run_page] 6 0 [[0; 4]]
              ++ map (shift_index (len (emit_pages [blank_run_page] 6 0 [[0; 4]])))
                   (emit_pages two_pages 6 0 [[0; 4]; [0; 4]])).
Proof.
  apply (chunk_text_app 3 [blank_run_page] two_pages 6 2); reflexivity.
Defined.

(** X5: Pages with empty text are transparent: they add no chunk and do not
    move the counter, so dropping them from the input changes nothing (one
    unit of fuel is needed to see that a loop does not start). *)
Theorem empty_pages_are_skipped (fuel : nat) (pages : list Page.t)
    (chunk_size chunk_overlap : Z) :
  (1 <= fuel)%nat ->
  chunk_text fuel (filter (fun page => truthy (Page.text page)) pages)
    chunk_size chunk_overlap
  = chunk_text fuel pages chunk_size chunk_overlap.
Proof.
  intros Hfuel. unfold chunk_text.
  destruct (chunk_size <=? chunk_overlap); [reflexivity |].
  enough (H : forall chunk_index chunks,
             pages_loop fuel (filter (fun page => truthy (Page.text page)) pages)
               chunk_size chunk_overlap chunk_index chunks
             = pages_loop fuel pages chunk_size chunk_overlap chunk_index chunks)
    by now rewrite H.
  induction pages as [| page rest IH]; intros chunk_index chunks; [reflexivity |].
  cbn [filter]. destruct (Page.text page) as [| c text] eqn:T; cbn [truthy].
  - rewrite IH. cbn [pages_loop]. destruct fuel as [| fuel]; [lia |].
    cbn [page_loop]. rewrite T. reflexivity.
  - cbn [pages_loop].
    destruct (page_loop fuel page chunk_size chunk_overlap 0 chunk_index chunks)
      as [[chunks' chunk_index'] |]; [apply IH | reflexivity].
Qed.

Lemma empty_pages_are_skipped_witness :
  chunk_text 3 (filter (fun page => truthy (Page.text page))
                  (page_of "" :: two_pages ++ [page_of ""])) 6 2
  = chunk_text 3 (page_of "" :: two_pages ++ [page_of ""]) 6 2.
Proof.
  apply (empty_pages_are_skipped 3 (page_of "" :: two_pages ++ [page_of ""]) 6 2).
  lia.
Defined.

(** ** Size of a chunk *)

Lemma len_slice_le {A : Type} (s : list A) (i j : Z) :
  i <= j -> len (slice s i j) <= j - i.
Proof.
  intros Hij. rewrite len_slice. pose proof (len_nonneg s) as Hn. unfold clamp.
  destruct (i <? 0) eqn:E1; [apply Z.ltb_lt in E1 | apply Z.ltb_ge in E1];
    (destruct (j <? 0) eqn:E2; [apply Z.ltb_lt in E2 | apply Z.ltb_ge in E2]); lia.
Qed.

Lemma len_strip_le (s : str) : len (strip s) <= len s.
Proof.
  destruct (strip_infix s) as [pre [post H]].
  apply (f_equal len) in H. rewrite !len_app in H.
  pose proof (len_nonneg pre). pose proof (len_nonneg post). lia.
Qed.

(** No candidate is wider than [chunk_size]. *)
Lemma window_width_le (text : str) (chunk_size start : Z) :
  0 <= chunk_size -> len (fst (window text chunk_size start)) <= chunk_size.
Proof.
  intros Hcs.
  pose proof (len_slice_le text start (start + chunk_size) ltac:(lia)) as Hc.
  destruct (snaps text chunk_size start) eqn:E.
  - destruct (window_snapped _ _ _ E) as [-> _]. cbn [fst].
    pose proof (break_point_range (slice text start (start + chunk_size))) as Hb.
    set (bp := break_point_of (slice text start (start + chunk_size))) in *.
    pose proof (len_slice_le text start (start + bp + 1) ltac:(lia)). lia.
  - rewrite (window_unsnapped _ _ _ E). cbn [fst]. lia.
Qed.

(** X6: For [chunk_size >= 0], no chunk of the output has more than
    [chunk_size] characters, snapped or not. *)
Theorem chunk_text_size_bound (fuel : nat) (pages : list Page.t)
    (chunk_size chunk_overlap : Z) (chunks : list Chunk.t) :
  0 <= chunk_size ->
  chunk_text fuel pages chunk_size chunk_overlap = Returned chunks ->
  Forall (fun chunk => len (Chunk.text chunk) <= chunk_size) chunks.
Proof.
  intros Hcs H. destruct (chunk_text_blocks _ _ _ _ _ H) as [blocks [-> Hb]].
  assert (HF : Forall (fun chunk =>
                         exists page : Page.t,
                           In page pages /\ len (Chunk.text chunk) <= chunk_size)
                 (List.concat blocks)).
  { eapply Forall_blocks with (Q := fun _ chunk => len (Chunk.text chunk) <= chunk_size);
      [| exact Hb].
    intros page block [chunk_index [starts [_ ->]]].
    apply Forall_emit_all with (P := fun _ => True).
    - intros i s _. unfold emit. cbn [Chunk.text].
      pose proof (len_strip_le (fst (window (Page.text page) chunk_size s))).
      pose proof (window_width_le (Page.text page) chunk_size s Hcs). lia.
    - clear. induction starts; constructor; auto. }
  eapply Forall_impl; [| exact HF]. cbn. intros chunk [_ [_ Hle]]. exact Hle.
Qed.

Lemma chunk_text_size_bound_witness :
  Forall (fun chunk => len (Chunk.text chunk) <= 10)
    (emit_pages [backstep_page] 10 0 [[0; -1; 1; 3; 5; 7; 9; 11]]).
Proof.
  apply (chunk_text_size_bound 9 [backstep_page] 10 8).
  - lia.
  - reflexivity.
Defined.

(** ** Shape of a snapped window *)

Lemma occurs_at_head (c : N) (sub s : str) (k : Z) :
  occurs_at (c :: sub) s k -> nth_error s (Z.to_nat k) = Some c.
Proof.
  intros [_ H]. revert H. generalize (Z.to_nat k). clear k.
  induction s as [| x s IH]; intros [| n]; cbn; try discriminate.
  - intros H. apply andb_prop in H. destruct H as [H _].
    apply N.eqb_eq in H. now subst.
  - apply IH.
Qed.

Lemma last_of_length {A : Type} (s : list A) (n : nat) (c : A) :
  List.length s = S n -> nth_error s n = Some c -> exists body, s = body ++ [c].
Proof.
  intros Hlen Hn. destruct s as [| x s] using rev_ind; [discriminate |].
  rewrite length_app in Hlen. cbn in Hlen.
  rewrite nth_error_app2 in Hn by lia.
  replace (n - List.length s)%nat with O in Hn by lia.
  cbn in Hn. inversion Hn; subst. now exists s.
Qed.

(** The offset [break_point] of a non-empty candidate holds a newline or a
    period when it is not [-1]. *)
Lemma break_point_char (s : str) :
  0 <= break_point_of s ->
  nth_error s (Z.to_nat (break_point_of s)) = Some 10%N \/
  nth_error s (Z.to_nat (break_point_of s)) = Some 46%N.
Proof.
  unfold break_point_of. cbv zeta. intros Hbp.
  destruct (Z.max_spec (rfind newline s) (rfind period_space s)) as [[_ E] | [_ E]];
    rewrite E in *.
  - right. destruct (rfind_last_offset period_space s) as [[H _] | [H _]]; [lia |].
    exact (occurs_at_head _ _ _ _ H).
  - left. destruct (rfind_last_offset newline s) as [[H _] | [H _]]; [lia |].
    exact (occurs_at_head _ _ _ _ H).
Qed.

(** X7: A snapped window at a cursor [start >= 0] ends inside the page before
    the unsnapped end, keeps more than half of [chunk_size] characters, and
    its candidate ends with the boundary character: a newline, or the period
    of a ". " (the space after it is left to the next window). *)
Theorem snapped_window_shape (text : str) (chunk_size start : Z) :
  0 <= chunk_size -> 0 <= start ->
  snaps text chunk_size start = true ->
  let candidate := fst (window text chunk_size start) in
  let end_ := snd (window text chunk_size start) in
  end_ <= start + chunk_size /\ start + chunk_size < len text /\
  len candidate = end_ - start /\
  chunk_size < 2 * (len candidate - 1) /\
  exists body c, candidate = body ++ [c] /\ (c = 10%N \/ c = 46%N).
Proof.
  intros Hcs Hstart Hsnap. cbv zeta.
  destruct (window_snapped _ _ _ Hsnap) as [Hw [Hend Hhalf]]. rewrite Hw.
  cbn [fst snd].
  pose proof (break_point_range (slice text start (start + chunk_size))) as Hb.
  pose proof (len_slice_le text start (start + chunk_size) ltac:(lia)) as Hc.
  pose proof (break_point_char (slice text start (start + chunk_size))) as Hchar.
  set (bp := break_point_of (slice text start (start + chunk_size))) in *.
  assert (Hlen : len (slice text start (start + bp + 1)) = bp + 1)
    by (rewrite len_slice_inside; lia).
  split; [lia |]. split; [exact Hend |]. split; [lia |]. split; [lia |].
  assert (Hsplit : slice text start (start + chunk_size)
                   = slice text start (start + bp + 1)
                     ++ slice text (start + bp + 1) (start + chunk_size))
    by (apply slice_split; lia).
  assert (Hlen' : List.length (slice text start (start + bp + 1)) = S (Z.to_nat bp))
    by (unfold len in Hlen; lia).
  assert (Hbp : 0 <= bp) by lia.
  rewrite Hsplit in Hchar. rewrite nth_error_app1 in Hchar by lia.
  destruct (Hchar Hbp) as [H | H];
    destruct (last_of_length _ _ _ Hlen' H) as [body Hbody].
  - exists body, 10%N. split; [exact Hbody | now left].
  - exists body, 46%N. split; [exact Hbody | now right].
Qed.

Lemma snapped_window_shape_witness :
  snd (window sentence_text 10 0) <= 0 + 10 /\ 0 + 10 < len sentence_text /\
  len (fst (window sentence_text 10 0)) = snd (window sentence_text 10 0) - 0 /\
  10 < 2 * (len (fst (window sentence_text 10 0)) - 1) /\
  exists body c,
    fst (window sentence_text 10 0) = body ++ [c] /\ (c = 10%N \/ c = 46%N).
Proof.
  apply (snapped_window_shape sentence_text 10 0).
  - lia.
  - lia.
  - reflexivity.
Defined.

(** ** No character of a page is lost *)

Lemma nth_error_slice {A : Type} (s : list A) (i j p : Z) :
  0 <= i <= p -> p < j -> p < len s ->
  nth_error (slice s i j) (Z.to_nat (p - i)) = nth_error s (Z.to_nat p).
Proof.
  intros Hi Hj Hp. unfold slice.
  rewrite (clamp_inside (len s) i) by lia.
  assert (Hhi : p < clamp (len s) j).
  { unfold clamp. destruct (j <? 0) eqn:E; [apply Z.ltb_lt in E |]; lia. }
  rewrite nth_error_firstn.
  replace (Nat.ltb (Z.to_nat (p - i)) (Z.to_nat (clamp (len s) j - i))) with true
    by (symmetry; apply Nat.ltb_lt; lia).
  rewrite nth_error_skipn. f_equal. lia.
Qed.

Lemma cursors_cover (text : str) (chunk_size chunk_overlap p : Z) :
  0 <= chunk_overlap < chunk_size -> 2 * chunk_overlap <= chunk_size + 1 ->
  p < len text ->
  forall fuel start starts,
    start <= p ->
    cursors fuel text chunk_size chunk_overlap start = Some starts ->
    exists s, In s starts /\ start <= s <= p /\ p < snd (window text chunk_size s).
Proof.
  intros Hov Hhalf Hp. induction fuel as [| fuel IH]; intros start starts Hs H;
    [discriminate |].
  cbn [cursors] in H.
  replace (start <? len text) with true in H by (symmetry; apply Z.ltb_lt; lia).
  destruct (cursors fuel text chunk_size chunk_overlap
              (snd (window text chunk_size start) - chunk_overlap))
    as [ss |] eqn:C; [| discriminate].
  cbn in H. inversion H; subst.
  destruct (Z_lt_le_dec p (snd (window text chunk_size start))) as [Hin | Hout].
  - exists start. split; [now left | lia].
  - assert (Hlt0 : chunk_overlap < chunk_size) by lia.
    pose proof (window_advances text chunk_size chunk_overlap start
                  Hlt0 Hhalf) as Hadv.
    assert (Hnext : snd (window text chunk_size start) - chunk_overlap <= p) by lia.
    destruct (IH _ _ Hnext C) as [s [Hs' [Hle Hlt]]].
    exists s. split; [now right | lia].
Qed.

(** X8: With [0 <= chunk_overlap] and an overlap of at most half the window,
    the windows of a page leave no gap: every character of the page text
    lies in the candidate of some window, at the offset the cursor gives. *)
Theorem windows_cover_text (fuel : nat) (text : str)
    (chunk_size chunk_overlap : Z) (starts : list Z) (p : Z) :
  0 <= chunk_overlap < chunk_size -> 2 * chunk_overlap <= chunk_size + 1 ->
  cursors fuel text chunk_size chunk_overlap 0 = Some starts ->
  0 <= p < len text ->
  exists s,
    In s starts /\ 0 <= s <= p /\
    nth_error (fst (window text chunk_size s)) (Z.to_nat (p - s))
    = nth_error text (Z.to_nat p).
Proof.
  intros Hov Hhalf H Hp.
  assert (Hlt' : p < len text) by lia. assert (H0 : 0 <= p) by lia.
  destruct (cursors_cover text chunk_size chunk_overlap p Hov Hhalf Hlt'
              fuel 0 starts H0 H) as [s [Hin [Hs Hlt]]].
  exists s. split; [exact Hin |]. split; [exact Hs |].
  rewrite window_slice. apply nth_error_slice; lia.
Qed.

Lemma windows_cover_text_witness :
  exists s,
    In s [0; 4] /\ 0 <= s <= 7 /\
    nth_error (fst (window (of_string "abcdefgh") 6 s)) (Z.to_nat (7 - s))
    = nth_error (of_string "abcdefgh") (Z.to_nat 7).
Proof.
  apply (windows_cover_text 3 (of_string "abcdefgh") 6 2 [0; 4] 7).
  - lia.
  - lia.
  - reflexivity.
  - vm_compute. split; [discriminate | reflexivity].
Defined.

(** ** Every page with text is represented *)

Lemma In_emit_pages (chunk_size : Z) (page : Page.t) (c : Chunk.t) :
  forall pages starts chunk_index,
    Forall2 (fun p ss => p = page -> exists k, In c (emit_all p chunk_size k ss))
      pages starts ->
    In page pages ->
    In c (emit_pages pages chunk_size chunk_index starts) \/
    exists k, In (shift_index k c) (emit_pages pages chunk_size chunk_index starts).
Proof.
  intros pages starts chunk_index H. revert chunk_index.
  induction H as [| p ss pages starts Hp _ IH]; intros chunk_index Hin;
    [destruct Hin |].
  cbn [emit_pages]. destruct Hin as [-> | Hin].
  - destruct (Hp eq_refl) as [k Hk]. right. exists (chunk_index - k).
    apply in_or_app. left.
    replace (emit_all page chunk_size chunk_index ss)
      with (emit_all page chunk_size (k + (chunk_index - k)) ss)
      by (f_equal; lia).
    rewrite emit_all_shift. now apply in_map.
  - destruct (IH (chunk_index + len ss) Hin) as [H' | [k H']].
    + left. apply in_or_app. now right.
    + right. exists k. apply in_or_app. now right.
Qed.

Lemma first_chunk_of_page (fuel : nat) (chunk_size chunk_overlap : Z)
    (page : Page.t) :
  Page.text page <> [] ->
  forall pages starts chunk_index,
    pages_cursors fuel pages chunk_size chunk_overlap = Some starts ->
    In page pages ->
    exists k, In (emit page chunk_size k 0)
                (emit_pages pages chunk_size chunk_index starts).
Proof.
  intros Htext pages starts chunk_index Hc Hin.
  apply pages_cursors_Forall2 in Hc.
  assert (HF : Forall2 (fun p ss =>
                          p = page ->
                          exists k, In (emit page chunk_size 0 0)
                                      (emit_all p chunk_size k ss))
                 pages starts).
  { eapply Forall2_impl; [| exact Hc]. intros p ss Hp ->.
    destruct ss as [| s rest].
    - exfalso. destruct fuel as [| fuel]; [discriminate |].
      cbn [cursors] in Hp.
      replace (0 <? len (Page.text page)) with true in Hp
        by (symmetry; apply Z.ltb_lt; pose proof (len_nonneg (Page.text page));
            destruct (Z.eq_dec (len (Page.text page)) 0) as [E | E];
            [apply len_nil_iff in E; contradiction | lia]).
      destruct (cursors fuel (Page.text page) chunk_size chunk_overlap
                  (snd (window (Page.text page) chunk_size 0) - chunk_overlap));
        discriminate.
    - destruct (cursors_head _ _ _ _ _ _ _ Hp) as [-> _].
      exists 0. cbn [emit_all]. now left. }
  destruct (In_emit_pages chunk_size page _ pages starts chunk_index HF Hin)
    as [H | [k H]].
  - now exists 0.
  - exists (0 + k). exact H.
Qed.

(** X9: Every input page whose text is not empty has a chunk in the output: the
    one cut at cursor 0, carrying the page's [source] and [page_number]. *)
Theorem page_with_text_has_chunk (fuel : nat) (pages : list Page.t)
    (chunk_size chunk_overlap : Z) (chunks : list Chunk.t) (page : Page.t) :
  chunk_text fuel pages chunk_size chunk_overlap = Returned chunks ->
  In page pages -> Page.text page <> [] ->
  exists chunk,
    In chunk chunks /\
    Chunk.text chunk = strip (fst (window (Page.text page) chunk_size 0)) /\
    Chunk.source chunk = Page.source page /\
    Chunk.page_number chunk = Page.page_number page.
Proof.
  intros H Hin Htext.
  apply chunk_text_returned in H. destruct H as [_ [starts [Hc ->]]].
  destruct (first_chunk_of_page fuel chunk_size chunk_overlap page Htext
              pages starts 0 Hc Hin) as [k Hk].
  eexists. split; [exact Hk |]. now cbn.
Qed.

Lemma page_with_text_has_chunk_witness :
  exists chunk,
    In chunk (emit_pages two_pages 6 0 [[0; 4]; [0; 4]]) /\
    Chunk.text chunk = strip (fst (window (of_string "ijklmnop") 6 0)) /\
    Chunk.source chunk = of_string "doc.pdf" /\
    Chunk.page_number chunk = 2.
Proof.
  apply (page_with_text_has_chunk 3 two_pages 6 2 _
           (Page.mk (of_string "ijklmnop") (of_string "doc.pdf") 2)).
  - reflexivity.
  - right. left. reflexivity.
  - discriminate.
Defined.

(** * Properties of [load_pdf] *)

(** ** Trimming twice *)

Lemma lstrip_id (s : str) :
  (forall c t, s = c :: t -> is_space c = false) -> lstrip s = s.
Proof.
  intros H. destruct s as [| c t]; [reflexivity |].
  cbn. now rewrite (H c t eq_refl).
Qed.

Lemma strip_idempotent (s : str) : strip (strip s) = strip s.
Proof.
  destruct (strip_ends s) as [Hhead Hlast].
  unfold strip at 1. rewrite (lstrip_id (strip s) Hhead). unfold rstrip.
  rewrite lstrip_id; [apply rev_involutive |].
  intros c t H. apply (Hlast (rev t) c).
  rewrite <- (rev_involutive (strip s)), H. reflexivity.
Qed.

Lemma truthy_true_iff (s : str) : truthy s = true <-> s <> [].
Proof. destruct s; cbn; split; intros H; congruence. Qed.

(** ** The pages that are kept *)

Lemma load_pages_acc (name : str) :
  forall texts page_num pages,
    Loader.load_pages name texts page_num pages
    = pages ++ Loader.load_pages name texts page_num [].
Proof.
  induction texts as [| text rest IH]; intros page_num pages; cbn [Loader.load_pages].
  - now rewrite app_nil_r.
  - rewrite IH. rewrite (IH _ (if truthy (strip text) then _ else _)).
    destruct (truthy (strip text)); cbn [app]; now rewrite <- ?app_assoc.
Qed.

Lemma load_pages_In (name : str) (p : Page.t) :
  forall texts k,
    In p (Loader.load_pages name texts (Z.of_nat k) []) <->
    exists i raw,
      nth_error texts i = Some raw /\ strip raw <> [] /\
      p = Loader.page_at name (k + i) raw.
Proof.
  induction texts as [| text rest IH]; intros k; cbn [Loader.load_pages].
  - split; [intros [] |]. intros [[| i] [raw [H _]]]; discriminate.
  - rewrite load_pages_acc. rewrite in_app_iff.
    replace (Z.of_nat k + 1) with (Z.of_nat (S k)) by lia. rewrite IH.
    split.
    + intros [H | [i [raw [Hn [Hs ->]]]]].
      * destruct (truthy (strip text)) eqn:T; [| destruct H].
        destruct H as [<- | []]. exists O, text.
        split; [reflexivity |]. split; [now apply truthy_true_iff |].
        unfold Loader.page_at. do 2 f_equal. lia.
      * exists (S i), raw. split; [exact Hn |]. split; [exact Hs |].
        unfold Loader.page_at. do 2 f_equal. lia.
    + intros [[| i] [raw [Hn [Hs ->]]]]; cbn in Hn.
      * inversion Hn; subst. left. apply truthy_true_iff in Hs. rewrite Hs.
        left. unfold Loader.page_at. do 2 f_equal. lia.
      * right. exists i, raw. split; [exact Hn |]. split; [exact Hs |].
        unfold Loader.page_at. do 2 f_equal. lia.
Qed.

Lemma load_pages_sorted (name : str) :
  forall texts k,
    StronglySorted (fun p q => Page.page_number p < Page.page_number q)
      (Loader.load_pages name texts (Z.of_nat k) []).
Proof.
  induction texts as [| text rest IH]; intros k; cbn [Loader.load_pages];
    [constructor |].
  rewrite load_pages_acc. replace (Z.of_nat k + 1) with (Z.of_nat (S k)) by lia.
  destruct (truthy (strip text)); cbn [app]; [| apply IH].
  constructor; [apply IH |].
  apply Forall_forall. intros q Hq. apply load_pages_In in Hq.
  destruct Hq as [i [raw [_ [_ ->]]]]. cbn. lia.
Qed.

Lemma load_pages_length (name : str) :
  forall texts page_num,
    (List.length (Loader.load_pages name texts page_num []) <= List.length texts)%nat.
Proof.
  induction texts as [| text rest IH]; intros page_num; cbn [Loader.load_pages];
    [cbn; lia |].
  rewrite load_pages_acc, length_app. specialize (IH (page_num + 1)).
  destruct (truthy (strip text)); cbn [List.length app] in *; lia.
Qed.

Section LoadPdfFacts.

Variable lower : str -> str.


(** X11: The pages [load_pdf] returns are exactly the pages of the document whose
    trimmed text is not empty: the page at index [i] (counted from 0) gives
    the record with that trimmed text, the file name as [source] and
    [page_number = i + 1]; nothing else is returned and no such page is
    dropped. *)
Theorem load_pdf_pages (f : Loader.file) (pages : list Page.t) (p : Page.t) :
  Loader.load_pdf lower f = inr pages ->
  (In p pages <->
   exists i raw,
     nth_error (Loader.page_texts f) i = Some raw /\ strip raw <> [] /\
     p = Loader.page_at (Loader.name f) i raw).
Proof.
  unfold Loader.load_pdf. destruct (negb (Loader.exists_ f)); [discriminate |].
  destruct (negb _); [discriminate |]. intros H. inversion H; subst.
  exact (load_pages_In (Loader.name f) p (Loader.page_texts f) 0).
Qed.

(** X12: The returned pages keep the order of the document: their page numbers
    increase strictly, lie in [1 .. len(doc)], and there are at most
    [len(doc)] of them. *)
Theorem load_pdf_page_numbers (f : Loader.file) (pages : list Page.t) :
  Loader.load_pdf lower f = inr pages ->
  StronglySorted (fun p q => Page.page_number p < Page.page_number q) pages /\
  Forall (fun p => 1 <= Page.page_number p <= len (Loader.page_texts f)) pages /\
  (List.length pages <= List.length (Loader.page_texts f))%nat.
Proof.
  intros H. split; [| split].
  - unfold Loader.load_pdf in H. destruct (negb (Loader.exists_ f)); [discriminate |].
    destruct (negb _); [discriminate |]. inversion H; subst.
    exact (load_pages_sorted (Loader.name f) (Loader.page_texts f) 0).
  - apply Forall_forall. intros p Hp. apply (load_pdf_pages f pages p H) in Hp.
    destruct Hp as [i [raw [Hn [_ ->]]]]. cbn.
    assert (Hi : (i < List.length (Loader.page_texts f))%nat)
      by (apply nth_error_Some; congruence).
    unfold len. lia.
  - unfold Loader.load_pdf in H. destruct (negb (Loader.exists_ f)); [discriminate |].
    destruct (negb _); [discriminate |]. inversion H; subst.
    apply load_pages_length.
Qed.

(** X13: Every returned page meets what the chunker expects of a page: its text
    is not empty, trimming it again changes nothing, its first and its last
    character are not whitespace, and its [source] is the file name. *)
Theorem load_pdf_pages_trimmed (f : Loader.file) (pages : list Page.t) :
  Loader.load_pdf lower f = inr pages ->
  Forall (fun p =>
            Page.text p <> [] /\ strip (Page.text p) = Page.text p /\
            (forall c t, Page.text p = c :: t -> is_space c = false) /\
            (forall t c, Page.text p = t ++ [c] -> is_space c = false) /\
            Page.source p = Loader.name f)
    pages.
Proof.
  intros H. apply Forall_forall. intros p Hp.
  apply (load_pdf_pages f pages p H) in Hp.
  destruct Hp as [i [raw [_ [Hs ->]]]]. cbn.
  split; [exact Hs |]. split; [apply strip_idempotent |].
  destruct (strip_ends raw) as [Hh Hl]. now repeat split.
Qed.

End LoadPdfFacts.


Lemma load_pdf_pages_witness :
  In (Page.mk (of_string "body text") (of_string "report.PDF") 3)
    [Page.mk (of_string "Title") (of_string "report.PDF") 1;
     Page.mk (of_string "body text") (of_string "report.PDF") 3;
     Page.mk (of_string "end") (of_string "report.PDF") 4].
Proof.
  apply (load_pdf_pages Loader.ascii_lower Loader.report).
  - reflexivity.
  - exists 2%nat, (of_string " body text ").
    split; [reflexivity |]. split; [vm_compute; discriminate | reflexivity].
Defined.

Lemma load_pdf_page_numbers_witness :
  StronglySorted (fun p q => Page.page_number p < Page.page_number q)
    (Loader.load_pages (of_string "report.PDF") (Loader.page_texts Loader.report) 0 []) /\
  Forall (fun p => 1 <= Page.page_number p <= len (Loader.page_texts Loader.report))
    (Loader.load_pages (of_string "report.PDF") (Loader.page_texts Loader.report) 0 []) /\
  (List.length
     (Loader.load_pages (of_string "report.PDF") (Loader.page_texts Loader.report) 0 [])
   <= List.length (Loader.page_texts Loader.report))%nat.
Proof.
  apply (load_pdf_page_numbers Loader.ascii_lower Loader.report). reflexivity.
Defined.

Lemma load_pdf_pages_trimmed_witness :
  Forall (fun p =>
            Page.text p <> [] /\ strip (Page.text p) = Page.text p /\
            (forall c t, Page.text p = c :: t -> is_space c = false) /\
            (forall t c, Page.text p = t ++ [c] -> is_space c = false) /\
            Page.source p = Loader.name Loader.report)
    (Loader.load_pages (of_string "report.PDF") (Loader.page_texts Loader.report) 0 []).
Proof.
  apply (load_pdf_pages_trimmed Loader.ascii_lower Loader.report). reflexivity.
Defined.

(** * Properties of the command line of the chunker *)

Lemma Forall_emit_pages (Q : Chunk.t -> Prop) (chunk_size : Z) :
  forall pages starts chunk_index,
    (forall page i s, In page pages -> Q (emit page chunk_size i s)) ->
    Forall Q (emit_pages pages chunk_size chunk_index starts).
Proof.
  induction pages as [| page rest IH]; intros [| ss starts] chunk_index HQ;
    cbn [emit_pages]; try constructor.
  apply Forall_app. split.
  - apply Forall_emit_all with (P := fun _ => True).
    + intros i s _. apply HQ. now left.
    + clear. induction ss; constructor; auto.
  - apply IH. intros p i s Hp. apply HQ. now right.
Qed.

(** The first window of a text that begins with a character other than
    whitespace gives a non-empty chunk, for [chunk_size >= 1]. *)
Lemma first_window_has_text (text : str) (chunk_size : Z) (c : N) (t : str) :
  1 <= chunk_size -> text = c :: t -> is_space c = false ->
  strip (fst (window text chunk_size 0)) <> [].
Proof.
  intros Hcs -> Hc H. apply strip_nil_iff in H. rewrite window_slice in H.
  assert (He : 1 <= snd (window (c :: t) chunk_size 0)).
  { destruct (snaps (c :: t) chunk_size 0) eqn:E.
    - destruct (window_snapped _ _ _ E) as [-> [_ Hbp]]. cbn [snd]. lia.
    - rewrite (window_unsnapped _ _ _ E). cbn [snd]. lia. }
  set (e := snd (window (c :: t) chunk_size 0)) in *.
  unfold slice in H. pose proof (len_nonneg t) as Hn.
  rewrite (clamp_inside (len (c :: t)) 0) in H by (rewrite len_cons; lia).
  assert (Hhi : 1 <= clamp (len (c :: t)) e)
    by (unfold clamp; rewrite len_cons;
        destruct (e <? 0) eqn:E; [apply Z.ltb_lt in E |]; lia).
  cbn [Z.to_nat skipn] in H.
  replace (Z.to_nat (clamp (len (c :: t)) e - 0))
    with (S (Z.to_nat (clamp (len (c :: t)) e - 1))) in H by lia.
  cbn in H. rewrite Hc in H. discriminate.
Qed.

Lemma slice_firstn {A : Type} (s : list A) (j : Z) :
  0 <= j -> slice s 0 j = firstn (Z.to_nat j) s.
Proof.
  intros Hj. unfold slice. pose proof (len_nonneg s) as Hn.
  rewrite (clamp_inside (len s) 0) by lia. cbn [Z.to_nat skipn].
  rewrite Z.sub_0_r. unfold clamp.
  replace (j <? 0) with false by (symmetry; apply Z.ltb_ge; lia).
  destruct (Z_le_gt_dec j (len s)) as [H | H].
  - now rewrite Z.min_l by lia.
  - rewrite Z.min_r by lia. unfold len in *. rewrite Nat2Z.id.
    rewrite firstn_all. symmetry. apply firstn_all2. lia.
Qed.

Lemma load_pdf_inr (lower : str -> str) (f : Loader.file) (pages : list Page.t) :
  Loader.load_pdf lower f = inr pages ->
  pages = Loader.load_pages (Loader.name f) (Loader.page_texts f) 0 [].
Proof.
  unfold Loader.load_pdf. destruct (negb (Loader.exists_ f)); [discriminate |].
  destruct (negb _); [discriminate |]. intros H. now inversion H.
Qed.

Section MainFacts.

Variable lower : str -> str.
Variable fs : str -> Loader.file.

(** X14: With the default [chunk_size = 1000] and [chunk_overlap = 200] the
    command line never fails in the chunker and never loops: for every
    argument list there is an amount of fuel from which on the run ends with
    the usage message, with an error of the extractor, or with the chunks. *)
Theorem main_finishes (argv : list str) :
  (forall fuel e, Main.main lower fs fuel argv <> Main.ChunkFailed e) /\
  exists fuel0,
    forall fuel, (fuel0 <= fuel)%nat ->
      Main.main lower fs fuel argv = Main.Usage \/
      (exists e, Main.main lower fs fuel argv = Main.LoadFailed e) \/
      (exists chunks preview, Main.main lower fs fuel argv = Main.Shown chunks preview).
Proof.
  unfold Main.main. destruct (len argv <? 2).
  - split; [discriminate |]. exists O. intros fuel _. now left.
  - destruct (Loader.load_pdf lower (fs (nth 1 argv []))) as [e | pages].
    + split; [discriminate |]. exists O. intros fuel _. right. left. now exists e.
    + split.
      * intros fuel e. unfold chunk_text. cbn [Z.leb Z.compare Pos.compare].
        replace (1000 <=? 200) with false by reflexivity.
        destruct (pages_loop fuel pages 1000 200 0 []); discriminate.
      * exists (enough_fuel pages). intros fuel Hfuel.
        destruct (pages_cursors_terminate 1000 200 ltac:(lia) ltac:(lia)
                    pages fuel Hfuel) as [starts [Hc _]].
        right. right.
        assert (H : chunk_text fuel pages 1000 200
                    = Returned (emit_pages pages 1000 0 starts))
          by (apply chunk_text_returned; split; [lia | now exists starts]).
        rewrite H. now eexists; eexists.
Qed.

(** X15: When the command line shows chunks, they come from the file named by
    the first argument: the indices are [0 .. N - 1]; every chunk carries the
    file name as [source], a page number in [1 .. len(doc)] and at most 1000
    characters; every page of the document whose trimmed text is not empty
    has a non-empty chunk with its page number; and the preview shows the
    first three chunks, at most 300 characters of each. *)
Theorem main_chunks (fuel : nat) (argv : list str) (chunks : list Chunk.t)
    (preview : list (Z * Z * Z * str)) :
  Main.main lower fs fuel argv = Main.Shown chunks preview ->
  let f := fs (nth 1 argv []) in
  2 <= len argv /\
  map Chunk.chunk_index chunks = zrange 0 (List.length chunks) /\
  Forall (fun chunk =>
            Chunk.source chunk = Loader.name f /\
            1 <= Chunk.page_number chunk <= len (Loader.page_texts f) /\
            len (Chunk.text chunk) <= 1000)
    chunks /\
  (forall i raw,
      nth_error (Loader.page_texts f) i = Some raw -> strip raw <> [] ->
      exists chunk,
        In chunk chunks /\ Chunk.page_number chunk = Z.of_nat i + 1 /\
        Chunk.text chunk <> []) /\
  preview = map Main.preview_of (firstn 3 chunks) /\
  Forall (fun row => len (snd row) <= 300) preview.
Proof.
  unfold Main.main. destruct (len argv <? 2) eqn:A; [discriminate |].
  apply Z.ltb_ge in A.
  destruct (Loader.load_pdf lower (fs (nth 1 argv []))) as [e | pages] eqn:L;
    [discriminate |].
  destruct (chunk_text fuel pages 1000 200) as [chunks' | e |] eqn:C;
    try discriminate.
  intros H. inversion H; subst. clear H. cbv zeta.
  set (f := fs (nth 1 argv [])) in *.
  apply load_pdf_inr in L.
  apply chunk_text_returned in C. destruct C as [_ [starts [Hc ->]]].
  split; [exact A |]. split; [apply emit_pages_index |]. split; [| split; [| split]].
  - apply Forall_emit_pages. intros page i s Hin. unfold emit. cbn.
    rewrite L in Hin. apply (load_pages_In _ _ _ 0%nat) in Hin.
    destruct Hin as [k [raw [Hn [_ ->]]]]. cbn.
    assert (Hk : (k < List.length (Loader.page_texts f))%nat)
      by (apply nth_error_Some; congruence).
    split; [reflexivity |]. split; [unfold len; lia |].
    pose proof (len_strip_le (fst (window (strip raw) 1000 s))).
    pose proof (window_width_le (strip raw) 1000 s ltac:(lia)). lia.
  - intros i raw Hn Hs.
    assert (Hin : In (Loader.page_at (Loader.name f) i raw) pages).
    { rewrite L. apply (load_pages_In _ _ _ 0%nat). now exists i, raw. }
    destruct (first_chunk_of_page fuel 1000 200
                (Loader.page_at (Loader.name f) i raw) Hs pages starts 0 Hc Hin)
      as [k Hk].
    eexists. split; [exact Hk |]. cbn. split; [reflexivity |].
    destruct (strip raw) as [| c t] eqn:S; [contradiction |].
    apply (first_window_has_text _ 1000 c t); [lia | reflexivity |].
    destruct (strip_ends raw) as [Hh _]. exact (Hh c t S).
  - now rewrite slice_firstn by lia.
  - apply Forall_forall. intros row Hrow. apply in_map_iff in Hrow.
    destruct Hrow as [chunk [<- _]]. cbn.
    pose proof (len_slice_le (Chunk.text chunk) 0 300 ltac:(lia)). lia.
Qed.

End MainFacts.

Lemma main_chunks_witness :
  let argv := [of_string "chunker.py"; of_string "report.PDF"] in
  let chunks := emit_pages
                  (Loader.load_pages (of_string "report.PDF")
                     (Loader.page_texts Loader.report) 0 [])
                  1000 0 [[0]; [0]; [0]] in
  2 <= len argv /\
  map Chunk.chunk_index chunks = zrange 0 (List.length chunks) /\
  Forall (fun chunk =>
            Chunk.source chunk = Loader.name Loader.report /\
            1 <= Chunk.page_number chunk <= len (Loader.page_texts Loader.report) /\
            len (Chunk.text chunk) <= 1000)
    chunks /\
  (forall i raw,
      nth_error (Loader.page_texts Loader.report) i = Some raw -> strip raw <> [] ->
      exists chunk,
        In chunk chunks /\ Chunk.page_number chunk = Z.of_nat i + 1 /\
        Chunk.text chunk <> []) /\
  map Main.preview_of (slice chunks 0 3) = map Main.preview_of (firstn 3 chunks) /\
  Forall (fun row => len (snd row) <= 300) (map Main.preview_of (slice chunks 0 3)).
Proof.
  cbv zeta.
  apply (main_chunks Loader.ascii_lower (fun _ => Loader.report) 2
           [of_string "chunker.py"; of_string "report.PDF"]).
  reflexivity.
Defined.

Lemma main_finishes_witness :
  (forall fuel e,
      Main.main Loader.ascii_lower (fun _ => Loader.report) fuel
        [of_string "chunker.py"; of_string "report.PDF"] <> Main.ChunkFailed e) /\
  exists fuel0,
    forall fuel, (fuel0 <= fuel)%nat ->
      Main.main Loader.ascii_lower (fun _ => Loader.report) fuel
        [of_string "chunker.py"; of_string "report.PDF"] = Main.Usage \/
      (exists e,
          Main.main Loader.ascii_lower (fun _ => Loader.report) fuel
            [of_string "chunker.py"; of_string "report.PDF"] = Main.LoadFailed e) \/
      (exists chunks preview,
          Main.main Loader.ascii_lower (fun _ => Loader.report) fuel
            [of_string "chunker.py"; of_string "report.PDF"]
          = Main.Shown chunks preview).
Proof.
  exact (main_finishes Loader.ascii_lower (fun _ => Loader.report)
           [of_string "chunker.py"; of_string "report.PDF"]).
Defined.
